(** * mnist_mask: glyph extraction and scene composition

    A shallow embedding of the algorithmic core of [mnist_mask.py]:
    the colour sampler ([valid_colors], [random_color]), the contour-union
    bounding box ([max_bounding_box], [crop_and_mask]), the placement
    planner ([random_anchor], [do_boxes_intersect]) and the letter loop of
    [create_random_image].

    Python integers are modelled as [Z].  The ambient state of the Python
    process (the [random] module and the module-level dictionary
    [VALID_COLORS]) is threaded explicitly through a small state and
    exception monad.  The OpenCV primitives the program calls
    ([cv2.findContours], [cv2.boundingRect], [cv2.rectangle], thresholding
    and array slicing) are parameters of a section. *)

From Stdlib Require Import ZArith List Lia Bool String.
From stdpp Require Import gmap pretty.
Import ListNotations.

Local Open Scope Z_scope.

(** ** Python values and exceptions *)

(** The exceptions a run can end with: the built-in classes that the
    library calls and the subscripts of the program raise, and exception
    classes defined by a program, identified by their class name.
    [mnist_mask.py] defines no exception class of its own. *)
Inductive exn : Type :=
| IndexError
| KeyError
| ValueError
| UserError (class_name : string).

Inductive result (A : Type) : Type :=
| Ok (a : A)
| Raise (e : exn).
Arguments Ok {A} a.
Arguments Raise {A} e.

Definition color : Type := Z * Z * Z.
Definition point : Type := Z * Z.

(** A box in the convention of [do_boxes_intersect]: upper left corner,
    then width and height, [((x, y), (w, h))]. *)
Definition box : Type := point * (Z * Z).

(** [range(a, b)] *)
Definition range (a b : Z) : list Z :=
  map (fun i => a + Z.of_nat i) (seq 0 (Z.to_nat (b - a))).

(** ** The process state *)

(** [random_draws] is the stream of raw draws the [random] module will
    deliver, [VALID_COLORS] the module-level cache.  [valid_colors_calls]
    is a ghost field: the arguments of the calls to [valid_colors] made so
    far, in order; no operation reads it. *)
Record world : Type := World {
  random_draws : nat -> nat;
  VALID_COLORS : gmap Z (list color);
  valid_colors_calls : list Z
}.

(** A computation may change the world and either returns or raises; the
    changes made before an exception persist. *)
Definition M (A : Type) : Type := world -> result A * world.

Definition ret {A} (a : A) : M A := fun s => (Ok a, s).

Definition raise {A} (e : exn) : M A := fun s => (Raise e, s).

Definition bind {A B} (m : M A) (f : A -> M B) : M B :=
  fun s => match m s with
           | (Ok a, s') => f a s'
           | (Raise e, s') => (Raise e, s')
           end.

Notation "'let*' x ':=' c 'in' k" := (bind c (fun x => k))
  (at level 10, x pattern, c at level 100, k at level 200).

(** The [random] module, as far as the program uses it on integers and
    sequences. *)
Module random.

(** The next raw draw of the generator. *)
Definition next_draw : M nat :=
  fun s => (Ok (random_draws s 0),
            World (fun i => random_draws s (S i)) (VALID_COLORS s) (valid_colors_calls s)).

(** [random.randint(a, b)]: an integer of the inclusive range,
    [ValueError] on an empty range. *)
Definition randint (a b : Z) : M Z :=
  if b <? a then raise ValueError
  else let* k := next_draw in ret (a + Z.of_nat k mod (b - a + 1)).

(** [random.choice(seq)]: the element at a drawn index, [IndexError] on
    an empty sequence. *)
Definition choice {A} (l : list A) : M A :=
  match l with
  | [] => raise IndexError
  | d :: _ => let* k := next_draw in ret (nth (k mod length l)%nat l d)
  end.

End random.

(** ** PlacementPlanner *)

(** The test of one loop iteration of [do_boxes_intersect]. *)
Definition box_hit (b other : box) : bool :=
  let '((x, y), (w, h)) := b in
  let '((other_x, other_y), (other_w, other_h)) := other in
  (((other_x <=? x) && (x <=? other_x + other_w)) || ((x <=? other_x) && (other_x <=? x + w)))
  && (((other_y <=? y) && (y <=? other_y + other_h)) || ((y <=? other_y) && (other_y <=? y + h))).

Fixpoint do_boxes_intersect (b : box) (other_boxes : list box) : bool :=
  match other_boxes with
  | [] => false
  | other :: rest => if box_hit b other then true else do_boxes_intersect b rest
  end.

(** The list comprehension of [random_anchor]. *)
Definition box_anchors (w h xdimension ydimension : Z) (occupied_boxes : list box) : list point :=
  flat_map (fun x =>
    flat_map (fun y =>
      if negb (do_boxes_intersect ((x, y), (w, h)) occupied_boxes) then [(x, y)] else [])
      (range 0 (ydimension - h)))
    (range 0 (xdimension - w)).

(** [occupied_boxes = None] is the default of the Python parameter;
    [valid_box_anchors] is used when it is given and not empty. *)
Definition random_anchor (w h xdimension ydimension : Z)
    (occupied_boxes : option (list box)) (valid_box_anchors : option (list point)) : M point :=
  match occupied_boxes with
  | None =>
      let* x := random.randint 0 (xdimension - w) in
      let* y := random.randint 0 (ydimension - h) in
      ret (x, y)
  | Some occupied =>
      let valid_box_anchors :=
        match valid_box_anchors with
        | Some (a :: l) => a :: l
        | _ => box_anchors w h xdimension ydimension occupied
        end in
      random.choice valid_box_anchors
  end.

(** ** ColorSampler *)

Definition valid_colors (max_brightness : Z) : list color :=
  flat_map (fun r =>
    flat_map (fun g =>
      flat_map (fun b =>
        if r + g + b <? max_brightness then [(r, g, b)] else [])
        (range 0 255))
      (range 0 255))
    (range 0 255).

Definition MAX_BRIGHTNESS : Z := 200.

(** The world right after the module has been loaded. *)
Definition initial_world (draws : nat -> nat) : world :=
  World draws {[ MAX_BRIGHTNESS := valid_colors MAX_BRIGHTNESS ]} [MAX_BRIGHTNESS].

(** [max_brightness not in VALID_COLORS.keys()] *)
Definition not_in_VALID_COLORS (max_brightness : Z) : M bool :=
  fun s => (Ok (match VALID_COLORS s !! max_brightness with
                | Some _ => false
                | None => true
                end), s).

(** [VALID_COLORS[max_brightness] = valid_colors(max_brightness)] *)
Definition store_valid_colors (max_brightness : Z) : M unit :=
  fun s => (Ok tt,
            World (random_draws s)
                  (<[ max_brightness := valid_colors max_brightness ]> (VALID_COLORS s))
                  (valid_colors_calls s ++ [max_brightness])).

(** [VALID_COLORS[max_brightness]] *)
Definition get_VALID_COLORS (max_brightness : Z) : M (list color) :=
  fun s => match VALID_COLORS s !! max_brightness with
           | Some l => (Ok l, s)
           | None => (Raise KeyError, s)
           end.

Definition random_color (max_brightness : Z) : M color :=
  let* missing := not_in_VALID_COLORS max_brightness in
  let* _ := (if missing : bool then store_valid_colors max_brightness else ret tt) in
  let* colors := get_VALID_COLORS max_brightness in
  let* randcolor := random.choice colors in
  ret randcolor.

(** ** GlyphExtractor *)

Definition THRESHOLD : Z := 100.
Definition BOUNDING_BOX_COLOR : color := (0, 255, 0).
Definition MAX_BOUNDING_BOX_COLOR : color := (0, 0, 255).

Section GlyphExtractor.

(** The OpenCV and numpy operations the extractor is written over. *)
Context {Image contour : Type}.
(** [cv2.bitwise_not] *)
Variable bitwise_not : Image -> Image.
(** [cv2.cvtColor(image, cv2.COLOR_BGR2GRAY)] *)
Variable cvtColor_BGR2GRAY : Image -> Image.
(** [cv2.threshold(src, thresh, maxval, type=0)], the thresholded image *)
Variable threshold : Image -> Z -> Z -> Image.
(** [cv2.findContours(image, RETR_TREE, CHAIN_APPROX_SIMPLE)], the
    list of contours *)
Variable findContours : Image -> list contour.
(** [cv2.boundingRect(cnt)], as [(x, y, w, h)] *)
Variable boundingRect : contour -> Z * Z * Z * Z.
(** [cv2.rectangle(img, pt1, pt2, color)], the image after drawing *)
Variable rectangle : Image -> point -> point -> color -> Image.
(** [img[ymin:ymax, xmin:xmax]] *)
Variable slice : Image -> Z -> Z -> Z -> Z -> Image.

Definition invert (image : Image) : Image := bitwise_not image.

Definition mask_by_threshold (image : Image) (thresh : Z) (inverted : bool) : Image :=
  let image := if negb inverted then invert image else image in
  let image_grayscale := cvtColor_BGR2GRAY image in
  threshold image_grayscale thresh 255.

(** The accumulator of the loop of [max_bounding_box]: the four running
    extremes and the image the boxes are drawn into, if any. *)
Definition max_bounding_box_step (bounding_box_color : color)
    (acc : Z * Z * Z * Z * option Image) (cnt : contour) : Z * Z * Z * Z * option Image :=
  let '(boxes_xmin, boxes_ymin, boxes_xmax, boxes_ymax, apply_boxes_image) := acc in
  let '(x, y, w, h) := boundingRect cnt in
  (Z.min x boxes_xmin, Z.min y boxes_ymin,
   Z.max (x + w) boxes_xmax, Z.max (y + h) boxes_ymax,
   match apply_boxes_image with
   | Some img => Some (rectangle img (x, y) (x + w, y + h) bounding_box_color)
   | None => None
   end).

(** Returns the two corner points and [apply_boxes_image] as the calls
    to [cv2.rectangle] leave it. *)
Definition max_bounding_box (mask : Image) (apply_boxes_image : option Image)
    (bounding_box_color : color) : result (point * point * option Image) :=
  let contours := findContours mask in
  match contours with
  | [] => Raise IndexError
  | contours_0 :: _ =>
      let '(boxes_xmin, boxes_ymin, wstart, hstart) := boundingRect contours_0 in
      let boxes_xmax := boxes_xmin + wstart in
      let boxes_ymax := boxes_ymin + hstart in
      let '(boxes_xmin, boxes_ymin, boxes_xmax, boxes_ymax, apply_boxes_image) :=
        fold_left (max_bounding_box_step bounding_box_color) contours
                  (boxes_xmin, boxes_ymin, boxes_xmax, boxes_ymax, apply_boxes_image) in
      Ok ((boxes_xmin, boxes_ymin), (boxes_xmax, boxes_ymax), apply_boxes_image)
  end.

Definition crop_and_mask (image : Image) (inverted debug : bool) : result (Image * Image) :=
  let mask := mask_by_threshold image THRESHOLD inverted in
  match max_bounding_box mask (if debug then Some image else None) BOUNDING_BOX_COLOR with
  | Raise e => Raise e
  | Ok (box_pt1, box_pt2, drawn) =>
      if debug then
        let image := match drawn with Some img => img | None => image end in
        Ok (rectangle image box_pt1 box_pt2 MAX_BOUNDING_BOX_COLOR, mask)
      else
        let '(xmin, ymin) := box_pt1 in
        let '(xmax, ymax) := box_pt2 in
        Ok (slice image ymin ymax xmin xmax, slice mask ymin ymax xmin xmax)
  end.

End GlyphExtractor.

(** ** SceneComposer *)

(** A letter as the loop of [create_random_image] has it after the two
    calls to [resized_image_from_file]: its label, the [shape] of the
    resized crop as (height, width), and the resized mask as a nested list. *)
Record resized_letter : Type := ResizedLetter {
  letter_label : string;
  letter_shape : Z * Z;
  letter_mask : list (list Z)
}.

(** The dictionary built by [to_match_dict]. *)
Record match_dict : Type := MatchDict {
  label : string;
  bounding_box : point * point;
  mask : list (list Z)
}.

Definition to_match_dict (label : string) (bounding_box : point * point)
    (mask : list (list Z)) : match_dict :=
  MatchDict label bounding_box mask.

(** The box that the loop appends to [occupied_boxes] for a letter of
    size [(w, h)] placed at [(x, y)]. *)
Definition occupied_box (max_overlap x y w h : Z) : box :=
  ((x + max_overlap, y + max_overlap), (w - 2 * max_overlap, h - 2 * max_overlap)).

(** The body of the loop over the chosen letters, on the two lists it
    extends.  Reading, resizing, tinting and blending the pixels is left
    out: of the letter only the shape reaches the placement. *)
Fixpoint place_letters (max_overlap xdimension ydimension max_brightness : Z)
    (letterfiles : list resized_letter)
    (occupied_boxes : list box) (matches : list match_dict)
    : M (list box * list match_dict) :=
  match letterfiles with
  | [] => ret (occupied_boxes, matches)
  | letter :: rest =>
      let* _ := random_color max_brightness in
      let '(h, w) := letter_shape letter in
      let* (x, y) := random_anchor w h xdimension ydimension (Some occupied_boxes) None in
      let occupied_boxes := occupied_boxes ++ [occupied_box max_overlap x y w h] in
      let matches :=
        matches ++
          [to_match_dict (letter_label letter) ((x, y), (x + w, y + h)) (letter_mask letter)] in
      place_letters max_overlap xdimension ydimension max_brightness rest occupied_boxes matches
  end.

(** The letters part of [create_random_image].  [letter_source i avg_height]
    is the [i]-th letter that [random_letter] picks, after
    [resized_image_from_file] has scaled it around [avg_height].  The
    result is the list of matches. *)
Definition create_random_image
    (min_letters max_letters min_lettersize max_lettersize : Z)
    (max_overlap xdimension ydimension max_brightness : Z)
    (letter_source : Z -> Z -> resized_letter) : M (list match_dict) :=
  let* num_letters := random.randint min_letters max_letters in
  if num_letters =? 0 then ret []
  else
    let* avg_height := random.randint min_lettersize max_lettersize in
    let letterfiles := map (fun i => letter_source i avg_height) (range 0 num_letters) in
    let* (_, matches) :=
      place_letters max_overlap xdimension ydimension max_brightness letterfiles [] [] in
    ret matches.

(** ** Further operations *)

(** [random_coord(xmin, xmax, ymin, ymax)] *)
Definition random_coord (xmin xmax ymin ymax : Z) : M point :=
  let* x := random.randint xmin xmax in
  let* y := random.randint ymin ymax in
  ret (x, y).

Section AssetPools.

(** The file-system queries the asset pools are read with: [os.listdir],
    which raises when the folder cannot be read, [os.path.isfile],
    [os.path.isdir] and [os.path.join]. *)
Variable listdir : string -> result (list string).
Variable isfile : string -> bool.
Variable isdir : string -> bool.
Variable path_join : string -> string -> string.

Definition random_file (root : string) : M string :=
  match listdir root with
  | Raise e => raise e
  | Ok names =>
      random.choice (List.filter (fun img => isfile (path_join root img)) names)
  end.

Definition random_letter (labelroot : string) : M (string * string * string) :=
  match listdir labelroot with
  | Raise e => raise e
  | Ok names =>
      let* randlabel :=
        random.choice (List.filter (fun label => isdir (path_join labelroot label)) names) in
      let imgroot := path_join labelroot randlabel in
      let* randimgfile := random_file imgroot in
      ret (randlabel, imgroot, randimgfile)
  end.

End AssetPools.

(** [str(n)] on an integer. *)
Definition str (n : Z) : string := pretty n.

(** One entry of the annotations list of [generate_labeled_data], with
    its keys [JSON_FILENAME_KEY] and [JSON_MATCHES_KEY]. *)
Record annotation : Type := Annotation {
  filepath : string;
  annotation_matches : list match_dict
}.

(** [create_random_image()] with the defaults of its parameters. *)
Definition create_random_image_default (letter_source : Z -> Z -> resized_letter)
  : M (list match_dict) :=
  create_random_image 0 8 28 60 5 400 300 MAX_BRIGHTNESS letter_source.

(** The loop of [generate_labeled_data] over the image ids, on the list
    it extends.  [letter_source img_id] supplies the letters of the scene
    of that image; writing the image file is left out. *)
Fixpoint generate_annotations (letter_source : Z -> Z -> Z -> resized_letter)
    (img_ids : list Z) (annotations : list annotation) : M (list annotation) :=
  match img_ids with
  | [] => ret annotations
  | img_id :: rest =>
      let imagefilename := String.append (str img_id) ".jpg" in
      let* matches := create_random_image_default (letter_source img_id) in
      generate_annotations letter_source rest
        (annotations ++ [Annotation imagefilename matches])
  end.

(** [generate_labeled_data]: the annotations that are dumped to the
    annotations file. *)
Definition generate_labeled_data (num_samples start_id_enumeration : Z)
    (letter_source : Z -> Z -> Z -> resized_letter) : M (list annotation) :=
  generate_annotations letter_source (range start_id_enumeration num_samples) [].

(** ** Vocabulary of the properties *)

(** A box with non-negative width and height. *)
Definition box_nonneg (b : box) : Prop :=
  let '(_, (w, h)) := b in 0 <= w /\ 0 <= h.

(** [box_contains outer inner]: both corners of [inner] lie in [outer]. *)
Definition box_contains (outer inner : box) : Prop :=
  let '((ox, oy), (ow, oh)) := outer in
  let '((x, y), (w, h)) := inner in
  ox <= x /\ x + w <= ox + ow /\ oy <= y /\ y + h <= oy + oh.

(** The closed interval-overlap test on both axes. *)
Definition intervals_overlap (a b : box) : Prop :=
  let '((ax, ay), (aw, ah)) := a in
  let '((bx, by'), (bw, bh)) := b in
  (ax <= bx + bw /\ bx <= ax + aw) /\ (ay <= by' + bh /\ by' <= ay + ah).

(** [covers r p1 p2]: the region of box [r] includes the rectangle from
    corner [p1] to corner [p2]. *)
Definition covers (r : box) (p1 p2 : point) : Prop :=
  let '((rx, ry), (rw, rh)) := r in
  let '(x1, y1) := p1 in
  let '(x2, y2) := p2 in
  rx <= x1 /\ ry <= y1 /\ x2 <= rx + rw /\ y2 <= ry + rh.

(** The occupied box of a recorded match, recomputed from its bounding
    box [((x, y), (x + w, y + h))]. *)
Definition match_occupied_box (max_overlap : Z) (m : match_dict) : box :=
  let '((x, y), (x2, y2)) := bounding_box m in
  occupied_box max_overlap x y (x2 - x) (y2 - y).

(** A random source that delivers the draws of a list, then zeros. *)
Definition draws_of (l : list nat) : nat -> nat := fun i => nth i l 0%nat.

(** The cache holds, under every key, the colours valid for that key. *)
Definition cache_ok (s : world) : Prop :=
  forall b l, VALID_COLORS s !! b = Some l -> l = valid_colors b.

(** A letter together with the anchor chosen for it. *)
Definition placement : Type := resized_letter * point.

(** The match and the occupied box that the loop records for a placement. *)
Definition match_of (p : placement) : match_dict :=
  let '(letter, (x, y)) := p in
  let '(h, w) := letter_shape letter in
  to_match_dict (letter_label letter) ((x, y), (x + w, y + h)) (letter_mask letter).

Definition occupied_of (max_overlap : Z) (p : placement) : box :=
  let '(letter, (x, y)) := p in
  let '(h, w) := letter_shape letter in
  occupied_box max_overlap x y w h.

(** [placed_ok occupied ps]: each anchor of [ps] was, in turn, one of the
    anchors that [random_anchor] enumerates against the boxes occupied at
    that moment. *)
Inductive placed_ok (max_overlap xdimension ydimension : Z)
  : list box -> list placement -> Prop :=
| placed_nil occupied :
    placed_ok max_overlap xdimension ydimension occupied []
| placed_cons occupied letter x y rest :
    In (x, y) (box_anchors (snd (letter_shape letter)) (fst (letter_shape letter))
                           xdimension ydimension occupied) ->
    placed_ok max_overlap xdimension ydimension
              (occupied ++ [occupied_of max_overlap (letter, (x, y))]) rest ->
    placed_ok max_overlap xdimension ydimension occupied ((letter, (x, y)) :: rest).

(** Inputs of the worked examples: a world whose cache holds the colours
    valid for brightness 1, and letter sources of fixed shapes. *)
Definition example_world (draws : list nat) : world :=
  World (draws_of draws) {[ 1 := [(0, 0, 0)] ]} [1].

Definition square_letters (i avg_height : Z) : resized_letter :=
  ResizedLetter "1" (28, 28) [].

Definition narrow_second_letter (i avg_height : Z) : resized_letter :=
  if i =? 0 then ResizedLetter "0" (28, 28) [] else ResizedLetter "1" (28, 2) [].

(** A colour of the valid set for a brightness bound. *)
Definition valid_color (max_brightness : Z) (c : color) : Prop :=
  let '(r, g, b) := c in
  0 <= r < 255 /\ 0 <= g < 255 /\ 0 <= b < 255 /\ r + g + b < max_brightness.

(** The invariant of the colour cache: every entry holds the colours valid
    for its key, and the keys are exactly the arguments [valid_colors] was
    called with, each once. *)
Definition session_ok (s : world) : Prop :=
  cache_ok s /\
  List.NoDup (valid_colors_calls s) /\
  (forall b, In b (valid_colors_calls s) <-> is_Some (VALID_COLORS s !! b)).

(** The sides of a rectangle [(x, y, w, h)] of [cv2.boundingRect]. *)
Definition rect_left (r : Z * Z * Z * Z) : Z := let '(x, _, _, _) := r in x.
Definition rect_top (r : Z * Z * Z * Z) : Z := let '(_, y, _, _) := r in y.
Definition rect_right (r : Z * Z * Z * Z) : Z := let '(x, _, w, _) := r in x + w.
Definition rect_bottom (r : Z * Z * Z * Z) : Z := let '(_, y, _, h) := r in y + h.

(** [is_min m l]: [m] is the least element of [l]; [is_max] likewise. *)
Definition is_min (m : Z) (l : list Z) : Prop := In m l /\ forall x, In x l -> m <= x.
Definition is_max (m : Z) (l : list Z) : Prop := In m l /\ forall x, In x l -> x <= m.

(** An instance of the OpenCV operations for the worked examples: an
    image is given by the bounding rectangles of its contours, and the
    pixel operations leave it as it is. *)
Definition contours_image : Type := list (Z * Z * Z * Z).

Definition example_crop_and_mask (image : contours_image) (inverted debug : bool)
  : result (contours_image * contours_image) :=
  crop_and_mask (fun img => img) (fun img => img) (fun img _ _ => img)
                (fun img => img) (fun r => r) (fun img _ _ _ => img)
                (fun img _ _ _ _ => img) image inverted debug.

Definition example_max_bounding_box (mask : contours_image)
  : result (point * point * option contours_image) :=
  max_bounding_box (fun img => img) (fun r => r) (fun img _ _ _ => img)
                   mask None BOUNDING_BOX_COLOR.

(** The world after one draw of the random module. *)
Definition after_draw (s : world) : world :=
  World (fun i => random_draws s (S i)) (VALID_COLORS s) (valid_colors_calls s).

(** The box of a recorded match in the convention of
    [do_boxes_intersect], recomputed from its two corners. *)
Definition match_box (m : match_dict) : box :=
  let '((x, y), (x2, y2)) := bounding_box m in ((x, y), (x2 - x, y2 - y)).

(** How far the intervals [[a1, a2]] and [[b1, b2]] reach into each
    other; negative when they are apart. *)
Definition overlap_extent (a1 a2 b1 b2 : Z) : Z := Z.min a2 b2 - Z.max a1 b1.

(** The image after [max_bounding_box] has drawn the rectangle of every
    contour into it, in the order of the contours. *)
Definition draw_contour_boxes {Image contour : Type}
    (boundingRect : contour -> Z * Z * Z * Z)
    (rectangle : Image -> point -> point -> color -> Image)
    (bounding_box_color : color) (contours : list contour) (image : Image) : Image :=
  fold_left (fun img cnt =>
               let '(x, y, w, h) := boundingRect cnt in
               rectangle img (x, y) (x + w, y + h) bounding_box_color)
            contours image.

(** A folder tree for the worked examples: label folders "0" and "7"
    and a file under "testing", with two and one image files in the
    label folders; every other folder is empty. *)
Definition example_listdir (root : string) : result (list string) :=
  if String.eqb root "testing" then Ok ["0"; "7"; "README"]
  else if String.eqb root "testing/0" then Ok ["a.png"; "b.png"]
  else if String.eqb root "testing/7" then Ok ["c.png"]
  else Ok [].

Definition example_isdir (path : string) : bool :=
  String.eqb path "testing/0" || String.eqb path "testing/7".

Definition example_isfile (path : string) : bool :=
  String.eqb path "testing/0/a.png" || String.eqb path "testing/0/b.png"
  || String.eqb path "testing/7/c.png" || String.eqb path "testing/README".

Definition example_path_join (a b : string) : string :=
  String.append a (String.append "/" b).

(** [cache_grows_by b s s']: from [s] to [s'] the colour cache and the
    call log are unchanged, or [b] was missing and exactly its entry was
    computed and stored. *)
Definition cache_grows_by (b : Z) (s s' : world) : Prop :=
  (VALID_COLORS s' = VALID_COLORS s /\ valid_colors_calls s' = valid_colors_calls s) \/
  (VALID_COLORS s !! b = None /\
   VALID_COLORS s' = <[ b := valid_colors b ]> (VALID_COLORS s) /\
   valid_colors_calls s' = valid_colors_calls s ++ [b]).

(** * Properties *)

(** ** The monad *)

Lemma bind_Ok_inv {A B} (m : M A) (f : A -> M B) s b s' :
  bind m f s = (Ok b, s') ->
  exists a s1, m s = (Ok a, s1) /\ f a s1 = (Ok b, s').
Proof.
  unfold bind. destruct (m s) as [[a|e] s1]; intros H.
  - exists a, s1. split; [reflexivity | exact H].
  - discriminate H.
Qed.

Lemma bind_fst_Ok_inv {A B} (m : M A) (f : A -> M B) s b :
  fst (bind m f s) = Ok b ->
  exists a s1, m s = (Ok a, s1) /\ fst (f a s1) = Ok b.
Proof.
  unfold bind. destruct (m s) as [[a|e] s1]; intros H.
  - exists a, s1. split; [reflexivity | exact H].
  - discriminate H.
Qed.

Lemma In_range a b i : In i (range a b) <-> a <= i < b.
Proof.
  unfold range. rewrite in_map_iff. split.
  - intros [k [<- Hk]]. apply in_seq in Hk. lia.
  - intros H. exists (Z.to_nat (i - a)). split; [lia|].
    apply in_seq. lia.
Qed.

Lemma NoDup_range a b : List.NoDup (range a b).
Proof.
  unfold range. apply Finite.Injective_map_NoDup.
  - intros i j H. lia.
  - apply seq_NoDup.
Qed.

Lemma choice_eq {A} (l : list A) d s :
  l <> [] ->
  random.choice l s =
    (Ok (nth (random_draws s 0 mod length l)%nat l d),
     World (fun i => random_draws s (S i)) (VALID_COLORS s) (valid_colors_calls s)).
Proof.
  intros Hl. destruct l as [|d' l]; [congruence|].
  unfold random.choice, bind, random.next_draw, ret. do 2 f_equal.
  apply nth_indep. apply Nat.mod_upper_bound. discriminate.
Qed.

Lemma choice_nil {A} s : random.choice (@nil A) s = (Raise IndexError, s).
Proof. reflexivity. Qed.

Lemma choice_In {A} (l : list A) s a s' :
  random.choice l s = (Ok a, s') -> In a l.
Proof.
  destruct l as [|d l]; [discriminate|].
  rewrite (choice_eq (d :: l) d) by discriminate.
  remember (nth (random_draws s 0 mod length (d :: l))%nat (d :: l) d) as c eqn:Hc.
  intros H. injection H as <- _. subst c.
  apply nth_In. apply Nat.mod_upper_bound. discriminate.
Qed.

(** ** The intersection predicate *)

Lemma box_hit_true_iff x y w h ox oy ow oh :
  box_hit ((x, y), (w, h)) ((ox, oy), (ow, oh)) = true <->
  ((ox <= x <= ox + ow) \/ (x <= ox <= x + w)) /\
  ((oy <= y <= oy + oh) \/ (y <= oy <= y + h)).
Proof.
  unfold box_hit.
  rewrite andb_true_iff, !orb_true_iff, !andb_true_iff, !Z.leb_le. tauto.
Qed.

Lemma do_boxes_intersect_single b other :
  do_boxes_intersect b [other] = box_hit b other.
Proof. simpl. destruct (box_hit b other); reflexivity. Qed.

Lemma do_boxes_intersect_false_iff b others :
  do_boxes_intersect b others = false <->
  forall o, In o others -> box_hit b o = false.
Proof.
  induction others as [|o others IH]; simpl.
  - split; [intros _ o []|reflexivity].
  - destruct (box_hit b o) eqn:E.
    + split; [discriminate|]. intros H. rewrite <- E. apply H. now left.
    + rewrite IH. split.
      * intros H o' [<-|Hin]; [exact E|now apply H].
      * intros H o' Hin. apply H. now right.
Qed.

Lemma box_hit_sym a b : box_hit a b = box_hit b a.
Proof.
  destruct a as [[x y] [w h]], b as [[ox oy] [ow oh]].
  apply eq_true_iff_eq. rewrite !box_hit_true_iff. tauto.
Qed.

(** Shrinking a box by a margin that its sides can absorb never creates
    a hit. *)
Lemma box_hit_occupied_box m x y w h o :
  0 <= m -> m <= w -> m <= h ->
  box_hit ((x, y), (w, h)) o = false ->
  box_hit (occupied_box m x y w h) o = false.
Proof.
  intros Hm Hw Hh Hfull. destruct o as [[ox oy] [ow oh]].
  apply not_true_is_false. intros Hhit.
  apply not_true_iff_false in Hfull. apply Hfull.
  unfold occupied_box in Hhit.
  rewrite box_hit_true_iff in *. lia.
Qed.

Lemma overlap_iff_hit a b :
  box_nonneg a -> box_nonneg b ->
  (do_boxes_intersect a [b] = true <-> intervals_overlap a b).
Proof.
  destruct a as [[x y] [w h]], b as [[ox oy] [ow oh]].
  unfold box_nonneg, intervals_overlap. intros [Hw Hh] [How Hoh].
  rewrite do_boxes_intersect_single, box_hit_true_iff. lia.
Qed.

Lemma contained_box_hit a b :
  box_nonneg a -> box_contains b a -> do_boxes_intersect a [b] = true.
Proof.
  destruct a as [[x y] [w h]], b as [[ox oy] [ow oh]].
  unfold box_nonneg, box_contains. intros [Hw Hh] Hc.
  rewrite do_boxes_intersect_single, box_hit_true_iff. lia.
Qed.

(** C4, as stated, does not hold: no box with non-negative sides that lies
    inside another box escapes the predicate. *)
Lemma contained_box_never_missed :
  ~ exists a b : box,
      box_nonneg a /\ box_contains b a /\ do_boxes_intersect a [b] = false.
Proof.
  intros [a [b [Ha [Hc Hf]]]].
  rewrite (contained_box_hit a b Ha Hc) in Hf. discriminate Hf.
Qed.

(** C4 (amended): on boxes with non-negative width and height,
    [do_boxes_intersect] on a single other box is exactly the closed
    interval-overlap test on both axes; in particular it returns true
    whenever the other box contains the first. *)
Theorem do_boxes_intersect_is_interval_overlap (a b : box) :
  box_nonneg a -> box_nonneg b ->
  (do_boxes_intersect a [b] = true <-> intervals_overlap a b) /\
  (box_contains b a -> do_boxes_intersect a [b] = true).
Proof.
  intros Ha Hb. split; [now apply overlap_iff_hit|].
  now apply contained_box_hit.
Qed.

Lemma do_boxes_intersect_is_interval_overlap_witness :
  (do_boxes_intersect ((2, 3), (4, 5)) [((0, 0), (10, 10))] = true <->
   intervals_overlap ((2, 3), (4, 5)) ((0, 0), (10, 10))) /\
  (box_contains ((0, 0), (10, 10)) ((2, 3), (4, 5)) ->
   do_boxes_intersect ((2, 3), (4, 5)) [((0, 0), (10, 10))] = true).
Proof.
  apply (do_boxes_intersect_is_interval_overlap ((2, 3), (4, 5)) ((0, 0), (10, 10)));
    simpl; lia.
Defined.

(** With a negative size, as an occupied box of a letter narrower than
    twice the margin has, the predicate does miss a box lying between the
    corners of the other. *)
Example negative_size_box_missed :
  do_boxes_intersect ((2, 2), (3, 3)) [((10, 10), (-10, -10))] = false.
Proof. reflexivity. Qed.

(** ** The anchors of [random_anchor] *)

Lemma In_box_anchors w h xdimension ydimension occupied x y :
  In (x, y) (box_anchors w h xdimension ydimension occupied) <->
  0 <= x < xdimension - w /\ 0 <= y < ydimension - h /\
  do_boxes_intersect ((x, y), (w, h)) occupied = false.
Proof.
  unfold box_anchors. rewrite in_flat_map. split.
  - intros [x' [Hx' H]]. apply in_flat_map in H. destruct H as [y' [Hy' H]].
    apply In_range in Hx', Hy'.
    destruct (do_boxes_intersect (x', y', (w, h)) occupied) eqn:E; simpl in H;
      [contradiction|].
    destruct H as [H|[]]. injection H as -> ->. auto.
  - intros (Hx & Hy & E). exists x. split; [apply In_range; lia|].
    apply in_flat_map. exists y. split; [apply In_range; lia|].
    rewrite E. simpl. auto.
Qed.

Lemma random_anchor_In w h xdimension ydimension occupied s p s' :
  random_anchor w h xdimension ydimension (Some occupied) None s = (Ok p, s') ->
  In p (box_anchors w h xdimension ydimension occupied).
Proof. unfold random_anchor. apply choice_In. Qed.

(** C2: the code at a failing input.  On a 3x3 canvas with a 1x1 box and
    one occupied point at the origin, the enumeration offers three
    anchors; the anchor (2, 2), which lies in the inclusive ranges and
    does not intersect, is never returned. *)
Theorem random_anchor_skips_last_row_and_column :
  box_anchors 1 1 3 3 [((0, 0), (0, 0))] = [(0, 1); (1, 0); (1, 1)] /\
  (0 <= 2 <= 3 - 1 /\ 0 <= 2 <= 3 - 1 /\
   do_boxes_intersect ((2, 2), (1, 1)) [((0, 0), (0, 0))] = false) /\
  (forall s, fst (random_anchor 1 1 3 3 (Some [((0, 0), (0, 0))]) None s) <> Ok (2, 2)).
Proof.
  split; [reflexivity|]. split; [repeat split; lia|].
  intros s H.
  destruct (random_anchor 1 1 3 3 (Some [((0, 0), (0, 0))]) None s) as [r s'] eqn:E.
  simpl in H. subst r. apply random_anchor_In in E.
  apply In_box_anchors in E. lia.
Qed.

Lemma box_anchors_nil w h xdimension ydimension occupied :
  (forall x y, 0 <= x < xdimension - w -> 0 <= y < ydimension - h ->
               do_boxes_intersect ((x, y), (w, h)) occupied = true) ->
  box_anchors w h xdimension ydimension occupied = [].
Proof.
  intros H. destruct (box_anchors w h xdimension ydimension occupied) as [|[x y] l] eqn:E;
    [reflexivity|].
  assert (Hin : In (x, y) (box_anchors w h xdimension ydimension occupied))
    by (rewrite E; now left).
  apply In_box_anchors in Hin. destruct Hin as (Hx & Hy & Hf).
  rewrite (H x y Hx Hy) in Hf. discriminate Hf.
Qed.

(** C5, as stated, does not hold: with the whole 3x3 canvas occupied no
    anchor is valid, and the call ends with the [IndexError] of
    [random.choice], which is not an error class of its own. *)
Lemma no_anchor_is_IndexError :
  (forall x y, 0 <= x <= 3 - 1 -> 0 <= y <= 3 - 1 ->
               do_boxes_intersect ((x, y), (1, 1)) [((0, 0), (3, 3))] = true) /\
  fst (random_anchor 1 1 3 3 (Some [((0, 0), (3, 3))]) None (example_world [])) =
    Raise IndexError /\
  fst (random_anchor 1 1 3 3 (Some [((0, 0), (3, 3))]) None (example_world [])) <>
    Raise (UserError "NoValidAnchorError").
Proof.
  split; [|split; [reflexivity|discriminate]].
  intros x y Hx Hy. rewrite do_boxes_intersect_single. apply box_hit_true_iff. lia.
Qed.

(** C5 (amended): when no anchor of the inclusive ranges avoids the
    occupied boxes, [random_anchor] raises the [IndexError] of
    [random.choice] on the empty candidate list and leaves the world as
    it was; it returns no position. *)
Theorem random_anchor_no_anchor_raises w h xdimension ydimension occupied s :
  (forall x y, 0 <= x <= xdimension - w -> 0 <= y <= ydimension - h ->
               do_boxes_intersect ((x, y), (w, h)) occupied = true) ->
  random_anchor w h xdimension ydimension (Some occupied) None s = (Raise IndexError, s).
Proof.
  intros H. unfold random_anchor.
  rewrite box_anchors_nil; [apply choice_nil|].
  intros x y Hx Hy. apply H; lia.
Qed.

Lemma random_anchor_no_anchor_raises_witness :
  random_anchor 1 1 3 3 (Some [((0, 0), (3, 3))]) None (example_world []) =
    (Raise IndexError, example_world []).
Proof.
  apply (random_anchor_no_anchor_raises 1 1 3 3 [((0, 0), (3, 3))] (example_world [])).
  intros x y Hx Hy. rewrite do_boxes_intersect_single. apply box_hit_true_iff. lia.
Defined.

(** ** The letter loop *)

Lemma place_letters_placed mo xd yd mb letterfiles :
  forall occupied matches s occupied' matches' s',
    place_letters mo xd yd mb letterfiles occupied matches s
      = (Ok (occupied', matches'), s') ->
    exists placed,
      map fst placed = letterfiles /\
      placed_ok mo xd yd occupied placed /\
      occupied' = occupied ++ map (occupied_of mo) placed /\
      matches' = matches ++ map match_of placed.
Proof.
  induction letterfiles as [|letter rest IH]; intros occupied matches s occupied' matches' s' H.
  - injection H as <- <- _. exists []. simpl. rewrite !app_nil_r.
    repeat split. constructor.
  - cbn [place_letters] in H.
    apply bind_Ok_inv in H. destruct H as (c & s1 & _ & H).
    destruct (letter_shape letter) as [h w] eqn:Eshape.
    apply bind_Ok_inv in H. destruct H as ([x y] & s2 & Hanchor & H).
    apply random_anchor_In in Hanchor.
    apply IH in H. destruct H as (placed & Hfst & Hok & Hocc & Hm).
    assert (Eocc : occupied_of mo (letter, (x, y)) = occupied_box mo x y w h)
      by (unfold occupied_of; now rewrite Eshape).
    assert (Ematch : match_of (letter, (x, y)) =
                     to_match_dict (letter_label letter) (x, y, (x + w, y + h))
                                   (letter_mask letter))
      by (unfold match_of; now rewrite Eshape).
    exists ((letter, (x, y)) :: placed). cbn [map fst]. repeat split.
    + now rewrite Hfst.
    + constructor; rewrite ?Eshape, ?Eocc; assumption.
    + rewrite Hocc, Eocc, <- app_assoc. reflexivity.
    + rewrite Hm, Ematch, <- app_assoc. reflexivity.
Qed.

Lemma create_random_image_placed
    min_letters max_letters min_lettersize max_lettersize mo xd yd mb letter_source s matches :
  fst (create_random_image min_letters max_letters min_lettersize max_lettersize
                           mo xd yd mb letter_source s) = Ok matches ->
  exists placed,
    placed_ok mo xd yd [] placed /\
    matches = map match_of placed /\
    (forall p, In p placed -> exists i avg_height, fst p = letter_source i avg_height).
Proof.
  unfold create_random_image. intros H.
  apply bind_fst_Ok_inv in H. destruct H as (num_letters & s1 & _ & H).
  destruct (num_letters =? 0).
  - injection H as <-. exists []. repeat split; [constructor|intros p []].
  - apply bind_fst_Ok_inv in H. destruct H as (avg_height & s2 & _ & H).
    apply bind_fst_Ok_inv in H. destruct H as ([occupied' matches'] & s3 & Hloop & H).
    injection H as <-.
    apply place_letters_placed in Hloop.
    destruct Hloop as (placed & Hfst & Hok & _ & Hm).
    exists placed. repeat split; [exact Hok|exact Hm|].
    intros p Hp. apply (in_map fst) in Hp. rewrite Hfst in Hp.
    apply in_map_iff in Hp. destruct Hp as (i & Hi & _). eauto.
Qed.

Lemma placed_ok_in_canvas mo xd yd occupied placed :
  placed_ok mo xd yd occupied placed ->
  forall letter x y, In (letter, (x, y)) placed ->
    0 <= x < xd - snd (letter_shape letter) /\
    0 <= y < yd - fst (letter_shape letter).
Proof.
  induction 1 as [|occupied letter x y rest Hin _ IH]; intros l' x' y' Hp.
  - destruct Hp.
  - destruct Hp as [Hp|Hp]; [|now apply IH].
    injection Hp as <- <- <-. apply In_box_anchors in Hin. tauto.
Qed.

(** Every letter placed later misses, with its occupied box, the boxes
    occupied before it. *)
Lemma placed_ok_pairwise mo xd yd occupied placed :
  placed_ok mo xd yd occupied placed ->
  0 <= mo ->
  (forall p, In p placed ->
     mo <= snd (letter_shape (fst p)) /\ mo <= fst (letter_shape (fst p))) ->
  (forall o q, In o occupied -> In q placed -> box_hit (occupied_of mo q) o = false) /\
  (forall i j a b, (i < j)%nat ->
     nth_error placed i = Some a -> nth_error placed j = Some b ->
     box_hit (occupied_of mo b) (occupied_of mo a) = false).
Proof.
  intros Hok Hmo. induction Hok as [|occupied letter x y rest Hin Hok IH]; intros Hsize.
  - split; [intros o q _ []|]. intros i j a b _ Ha. destruct i; discriminate Ha.
  - destruct IH as [IH1 IH2]; [intros p Hp; apply Hsize; now right|].
    split.
    + intros o q Ho [<-|Hq].
      * apply In_box_anchors in Hin. destruct Hin as (_ & _ & Hf).
        destruct (Hsize (letter, (x, y)) (or_introl eq_refl)) as [Hw Hh]. simpl in Hw, Hh.
        unfold occupied_of. destruct (letter_shape letter) as [h w]. simpl in *.
        apply box_hit_occupied_box; try assumption.
        now apply (proj1 (do_boxes_intersect_false_iff _ _) Hf).
      * apply IH1; [|exact Hq]. apply in_or_app. now left.
    + intros i j a b Hij Ha Hb. destruct j as [|j]; [lia|]. simpl in Hb.
      destruct i as [|i]; simpl in Ha.
      * injection Ha as <-. apply IH1; [|now apply nth_error_In in Hb].
        apply in_or_app. right. now left.
      * apply (IH2 i j); [lia|assumption|assumption].
Qed.

Lemma match_occupied_box_of mo p :
  match_occupied_box mo (match_of p) = occupied_of mo p.
Proof.
  destruct p as [letter [x y]]. unfold match_occupied_box, match_of, occupied_of.
  destruct (letter_shape letter) as [h w]. simpl. f_equal; lia.
Qed.

Lemma fst_eq_inv {A B} (p : A * B) a : fst p = a -> exists b, p = (a, b).
Proof. destruct p as [a' b]. simpl. intros ->. now exists b. Qed.

(** C3, as stated, does not hold: a 28x28 letter placed at the origin
    with margin 5 is recorded as the box from (5, 5) of size 18x18, which
    does not reach from (-5, -5) to (33, 33). *)
Lemma occupied_box_is_not_inflated :
  fst (place_letters 5 40 40 1 [ResizedLetter "1" (28, 28) []] [] [] (example_world []))
    = Ok ([((5, 5), (18, 18))], [MatchDict "1" ((0, 0), (28, 28)) []]) /\
  ~ covers ((5, 5), (18, 18)) (0 - 5, 0 - 5) (0 + 28 + 5, 0 + 28 + 5).
Proof.
  split; [vm_compute; reflexivity|]. unfold covers. lia.
Qed.

(** C3 (amended): for every letter of scaled size (w, h) that the loop
    places at anchor (x, y) with margin m, the box appended to
    [occupied_boxes] is the letter's bounding box shrunk by m on all
    sides, [((x + m, y + m), (w - 2m, h - 2m))]: it covers exactly the
    rectangles between (x + m, y + m) and (x + w - m, y + h - m). *)
Theorem occupied_boxes_are_shrunk mo xd yd mb letterfiles s occupied matches :
  fst (place_letters mo xd yd mb letterfiles [] [] s) = Ok (occupied, matches) ->
  forall i letter, nth_error letterfiles i = Some letter ->
    exists x y,
      let w := snd (letter_shape letter) in
      let h := fst (letter_shape letter) in
      option_map bounding_box (nth_error matches i) = Some ((x, y), (x + w, y + h)) /\
      nth_error occupied i = Some ((x + mo, y + mo), (w - 2 * mo, h - 2 * mo)) /\
      forall p1 p2,
        covers ((x + mo, y + mo), (w - 2 * mo, h - 2 * mo)) p1 p2 <->
        x + mo <= fst p1 /\ y + mo <= snd p1 /\
        fst p2 <= x + w - mo /\ snd p2 <= y + h - mo.
Proof.
  intros H i letter Hi.
  apply fst_eq_inv in H. destruct H as [s' H].
  apply place_letters_placed in H. destruct H as (placed & Hfst & _ & -> & ->).
  simpl app. subst letterfiles.
  rewrite nth_error_map in Hi.
  destruct (nth_error placed i) as [[l [x y]]|] eqn:Ep; [|discriminate Hi].
  injection Hi as ->. exists x, y. cbn zeta.
  rewrite !nth_error_map. unfold placement in *. rewrite Ep. cbn [option_map].
  unfold match_of, occupied_of, occupied_box.
  destruct (letter_shape letter) as [h w]. simpl.
  split; [reflexivity|]. split; [reflexivity|].
  intros [x1 y1] [x2 y2]. unfold covers. simpl. lia.
Qed.

Lemma occupied_boxes_are_shrunk_witness :
  exists x y,
    option_map bounding_box (nth_error [MatchDict "1" ((0, 0), (28, 28)) []] 0)
      = Some ((x, y), (x + 28, y + 28)) /\
    nth_error [((5, 5), (18, 18))] 0 = Some ((x + 5, y + 5), (28 - 2 * 5, 28 - 2 * 5)) /\
    forall p1 p2,
      covers ((x + 5, y + 5), (28 - 2 * 5, 28 - 2 * 5)) p1 p2 <->
      x + 5 <= fst p1 /\ y + 5 <= snd p1 /\
      fst p2 <= x + 28 - 5 /\ snd p2 <= y + 28 - 5.
Proof.
  apply (occupied_boxes_are_shrunk 5 40 40 1 [ResizedLetter "1" (28, 28) []]
           (example_world []) [((5, 5), (18, 18))] [MatchDict "1" ((0, 0), (28, 28)) []]
           ltac:(vm_compute; reflexivity) 0%nat (ResizedLetter "1" (28, 28) [])).
  reflexivity.
Defined.

(** C1, as stated, does not hold: after a 28x28 letter, a letter two
    pixels wide can be placed so that the two occupied boxes satisfy the
    predicate. *)
Lemma narrow_letter_occupied_boxes_intersect :
  exists a b,
    fst (create_random_image 0 8 28 60 5 40 40 1 narrow_second_letter
                             (example_world [2%nat])) = Ok [a; b] /\
    do_boxes_intersect (match_occupied_box 5 a) [match_occupied_box 5 b] = true.
Proof.
  exists (MatchDict "0" ((0, 0), (28, 28)) []), (MatchDict "1" ((0, 0), (2, 28)) []).
  split; vm_compute; reflexivity.
Qed.

(** C1 (amended): when the margin is not negative and every letter is at
    least as wide and as high as the margin, then in every scene that
    [create_random_image] returns, the occupied boxes of any two matches
    do not satisfy [do_boxes_intersect]. *)
Theorem occupied_boxes_do_not_intersect
    min_letters max_letters min_lettersize max_lettersize mo xd yd mb letter_source s matches :
  fst (create_random_image min_letters max_letters min_lettersize max_lettersize
                           mo xd yd mb letter_source s) = Ok matches ->
  0 <= mo ->
  (forall i avg_height,
     mo <= snd (letter_shape (letter_source i avg_height)) /\
     mo <= fst (letter_shape (letter_source i avg_height))) ->
  forall i j a b, i <> j ->
    nth_error matches i = Some a -> nth_error matches j = Some b ->
    do_boxes_intersect (match_occupied_box mo a) [match_occupied_box mo b] = false.
Proof.
  intros H Hmo Hsize i j a b Hij Ha Hb.
  apply create_random_image_placed in H. destruct H as (placed & Hok & -> & Hsrc).
  rewrite nth_error_map in Ha, Hb.
  destruct (nth_error placed i) as [pa|] eqn:Ea; [|discriminate Ha].
  destruct (nth_error placed j) as [pb|] eqn:Eb; [|discriminate Hb].
  injection Ha as <-. injection Hb as <-.
  rewrite do_boxes_intersect_single, !match_occupied_box_of.
  destruct (placed_ok_pairwise mo xd yd [] placed Hok Hmo) as [_ Hpair].
  - intros p Hp. destruct (Hsrc p Hp) as (k & avg & ->). apply Hsize.
  - destruct (Nat.lt_total i j) as [Hlt|[Heq|Hgt]]; [|contradiction|].
    + rewrite box_hit_sym. now apply (Hpair i j).
    + now apply (Hpair j i).
Qed.

Lemma occupied_boxes_do_not_intersect_witness :
  fst (create_random_image 0 8 28 60 5 80 40 1 square_letters (example_world [2%nat]))
    = Ok [MatchDict "1" ((0, 0), (28, 28)) []; MatchDict "1" ((24, 0), (52, 28)) []] /\
  do_boxes_intersect (match_occupied_box 5 (MatchDict "1" ((0, 0), (28, 28)) []))
                     [match_occupied_box 5 (MatchDict "1" ((24, 0), (52, 28)) [])] = false.
Proof.
  split; [vm_compute; reflexivity|].
  apply (occupied_boxes_do_not_intersect 0 8 28 60 5 80 40 1 square_letters
           (example_world [2%nat]) _ ltac:(vm_compute; reflexivity) ltac:(lia)
           ltac:(intros; simpl; lia) 0%nat 1%nat);
    [discriminate|reflexivity|reflexivity].
Defined.

(** C9: in every scene that [create_random_image] returns, the bounding
    box ((x, y), (x + w, y + h)) of every match lies within the canvas. *)
Theorem matches_lie_within_canvas
    min_letters max_letters min_lettersize max_lettersize mo xd yd mb letter_source s matches :
  fst (create_random_image min_letters max_letters min_lettersize max_lettersize
                           mo xd yd mb letter_source s) = Ok matches ->
  forall m, In m matches ->
    exists x y w h,
      bounding_box m = ((x, y), (x + w, y + h)) /\
      0 <= x /\ x + w <= xd /\ 0 <= y /\ y + h <= yd.
Proof.
  intros H m Hm.
  apply create_random_image_placed in H. destruct H as (placed & Hok & -> & _).
  apply in_map_iff in Hm. destruct Hm as ([letter [x y]] & <- & Hp).
  destruct (placed_ok_in_canvas _ _ _ _ _ Hok letter x y Hp) as [Hx Hy].
  unfold match_of. destruct (letter_shape letter) as [h w]. simpl in *.
  exists x, y, w, h. split; [reflexivity|lia].
Qed.

Lemma matches_lie_within_canvas_witness :
  exists x y w h,
    bounding_box (MatchDict "1" ((24, 0), (52, 28)) []) = ((x, y), (x + w, y + h)) /\
    0 <= x /\ x + w <= 80 /\ 0 <= y /\ y + h <= 40.
Proof.
  apply (matches_lie_within_canvas 0 8 28 60 5 80 40 1 square_letters
           (example_world [2%nat])
           [MatchDict "1" ((0, 0), (28, 28)) []; MatchDict "1" ((24, 0), (52, 28)) []]
           ltac:(vm_compute; reflexivity)).
  right. left. reflexivity.
Defined.

(** ** The colour sampler *)

Lemma NoDup_flat_map {A B} (f : A -> list B) (l : list A) :
  List.NoDup l ->
  (forall x, In x l -> List.NoDup (f x)) ->
  (forall x y b, In x l -> In y l -> In b (f x) -> In b (f y) -> x = y) ->
  List.NoDup (flat_map f l).
Proof.
  induction 1 as [|x l Hx Hl IH]; intros Hf Hinj; simpl; [constructor|].
  apply List.NoDup_app.
  - apply Hf. now left.
  - apply IH.
    + intros y Hy. apply Hf. now right.
    + intros y z b Hy Hz. apply Hinj; now right.
  - intros b Hb Hb'. apply in_flat_map in Hb'. destruct Hb' as (y & Hy & Hby).
    apply Hx. rewrite (Hinj x y b); auto. now left. now right.
Qed.

Lemma In_valid_colors max_brightness c :
  In c (valid_colors max_brightness) <-> valid_color max_brightness c.
Proof.
  destruct c as [[r g] b]. unfold valid_colors, valid_color.
  rewrite in_flat_map. split.
  - intros (r' & Hr & H). apply in_flat_map in H. destruct H as (g' & Hg & H).
    apply in_flat_map in H. destruct H as (b' & Hb & H).
    apply In_range in Hr, Hg, Hb.
    destruct (r' + g' + b' <? max_brightness) eqn:E; [|destruct H].
    destruct H as [H|[]]. injection H as -> -> ->. apply Z.ltb_lt in E. lia.
  - intros (Hr & Hg & Hb & Hsum). exists r. split; [now apply In_range|].
    apply in_flat_map. exists g. split; [now apply In_range|].
    apply in_flat_map. exists b. split; [now apply In_range|].
    apply Z.ltb_lt in Hsum. rewrite Hsum. now left.
Qed.

Lemma NoDup_valid_colors max_brightness : List.NoDup (valid_colors max_brightness).
Proof.
  unfold valid_colors.
  apply NoDup_flat_map; [apply NoDup_range| |].
  - intros r _. apply NoDup_flat_map; [apply NoDup_range| |].
    + intros g _. apply NoDup_flat_map; [apply NoDup_range| |].
      * intros b _. destruct (r + g + b <? max_brightness); repeat constructor; intros [].
      * intros b b' c _ _ Hc Hc'.
        destruct (r + g + b <? max_brightness); [|destruct Hc].
        destruct (r + g + b' <? max_brightness); [|destruct Hc'].
        destruct Hc as [<-|[]]. destruct Hc' as [Hc'|[]]. congruence.
    + intros g g' c _ _ Hc Hc'.
      apply in_flat_map in Hc, Hc'. destruct Hc as (b & _ & Hc), Hc' as (b' & _ & Hc').
      destruct (r + g + b <? max_brightness); [|destruct Hc].
      destruct (r + g' + b' <? max_brightness); [|destruct Hc'].
      destruct Hc as [<-|[]]. destruct Hc' as [Hc'|[]]. congruence.
  - intros r r' c _ _ Hc Hc'.
    apply in_flat_map in Hc, Hc'. destruct Hc as (g & _ & Hc), Hc' as (g' & _ & Hc').
    apply in_flat_map in Hc, Hc'. destruct Hc as (b & _ & Hc), Hc' as (b' & _ & Hc').
    destruct (r + g + b <? max_brightness); [|destruct Hc].
    destruct (r' + g' + b' <? max_brightness); [|destruct Hc'].
    destruct Hc as [<-|[]]. destruct Hc' as [Hc'|[]]. congruence.
Qed.

Lemma valid_colors_nonempty max_brightness :
  0 < max_brightness <-> valid_colors max_brightness <> [].
Proof.
  split.
  - intros H E.
    assert (Hin : In (0, 0, 0) (valid_colors max_brightness))
      by (apply In_valid_colors; unfold valid_color; lia).
    rewrite E in Hin. destruct Hin.
  - intros H. destruct (valid_colors max_brightness) as [|[[r g] b] l] eqn:E; [congruence|].
    assert (Hin : In (r, g, b) (valid_colors max_brightness)) by (rewrite E; now left).
    apply In_valid_colors in Hin. unfold valid_color in Hin. lia.
Qed.

Lemma initial_world_ok draws : session_ok (initial_world draws).
Proof.
  unfold session_ok, cache_ok, initial_world. cbn [VALID_COLORS valid_colors_calls].
  split; [|split].
  - intros b l H. apply lookup_singleton_Some in H. destruct H as [<- <-]. reflexivity.
  - repeat constructor. intros [].
  - intros b. rewrite <- not_eq_None_Some, lookup_singleton_None. split.
    + intros [<-|[]]. congruence.
    + intros H. left. destruct (decide (MAX_BRIGHTNESS = b)); [assumption|contradiction].
Qed.

Lemma NoDup_singleton_eq {A} (l : list A) (x : A) :
  List.NoDup l -> (forall c, In c l <-> c = x) -> l = [x].
Proof.
  intros Hnd Hin. destruct l as [|a l]; [now destruct (proj2 (Hin x) eq_refl)|].
  assert (a = x) as -> by (apply Hin; now left).
  destruct l as [|b l]; [reflexivity|].
  assert (b = x) as -> by (apply Hin; right; now left).
  inversion Hnd as [|? ? Hnotin _]. destruct Hnotin. now left.
Qed.

Lemma valid_colors_1 : valid_colors 1 = [(0, 0, 0)].
Proof.
  apply NoDup_singleton_eq; [apply NoDup_valid_colors|].
  intros [[r g] b]. rewrite In_valid_colors. unfold valid_color. split.
  - intros H. repeat f_equal; lia.
  - intros H. injection H as -> -> ->. lia.
Qed.

Lemma example_world_ok draws : session_ok (example_world draws).
Proof.
  unfold session_ok, cache_ok, example_world. cbn [VALID_COLORS valid_colors_calls].
  split; [|split].
  - intros b l H. apply lookup_singleton_Some in H. destruct H as [<- <-].
    now rewrite valid_colors_1.
  - repeat constructor. intros [].
  - intros b. rewrite <- not_eq_None_Some, lookup_singleton_None. split.
    + intros [<-|[]]. congruence.
    + intros H. left. destruct (decide (1 = b)); [assumption|contradiction].
Qed.

(** What a call does when the key is cached and when it is not. *)
Lemma random_color_cached max_brightness s l :
  VALID_COLORS s !! max_brightness = Some l ->
  random_color max_brightness s =
    bind (random.choice l) ret s.
Proof.
  intros E. unfold random_color, not_in_VALID_COLORS, get_VALID_COLORS.
  unfold bind at 1. rewrite E. unfold bind at 1. cbn [ret].
  unfold bind at 1. rewrite E. reflexivity.
Qed.

Lemma random_color_missing max_brightness s :
  VALID_COLORS s !! max_brightness = None ->
  random_color max_brightness s =
    bind (random.choice (valid_colors max_brightness)) ret
         (World (random_draws s)
                (<[ max_brightness := valid_colors max_brightness ]> (VALID_COLORS s))
                (valid_colors_calls s ++ [max_brightness])).
Proof.
  intros E. unfold random_color, not_in_VALID_COLORS, get_VALID_COLORS, store_valid_colors.
  unfold bind at 1. rewrite E. unfold bind at 1.
  unfold bind at 1. cbn [VALID_COLORS]. rewrite lookup_insert_eq. reflexivity.
Qed.

Lemma choice_nth_error {A} (l : list A) s :
  l <> [] ->
  exists c,
    random.choice l s =
      (Ok c, World (fun i => random_draws s (S i)) (VALID_COLORS s) (valid_colors_calls s)) /\
    nth_error l (random_draws s 0 mod length l)%nat = Some c.
Proof.
  intros Hl.
  assert (Hlen : length l <> 0%nat) by (destruct l; [congruence|discriminate]).
  destruct l as [|d l'] eqn:El; [congruence|]. rewrite <- El in *.
  exists (nth (random_draws s 0 mod length l)%nat l d). split.
  - apply choice_eq. exact Hl.
  - apply nth_error_nth'. now apply Nat.mod_upper_bound.
Qed.

Lemma session_ok_store max_brightness s draws :
  session_ok s ->
  VALID_COLORS s !! max_brightness = None ->
  session_ok (World draws
                    (<[ max_brightness := valid_colors max_brightness ]> (VALID_COLORS s))
                    (valid_colors_calls s ++ [max_brightness])).
Proof.
  intros (Hcache & Hnodup & Hkeys) E.
  unfold session_ok, cache_ok. cbn [VALID_COLORS valid_colors_calls].
  split; [|split].
  - intros b l H. destruct (decide (max_brightness = b)) as [<-|Hne].
    + rewrite lookup_insert_eq in H. congruence.
    + rewrite lookup_insert_ne in H by assumption. now apply Hcache.
  - apply List.NoDup_app; [assumption|repeat constructor; intros []|].
    intros b Hb [<-|[]]. apply Hkeys in Hb. rewrite E in Hb. now destruct Hb.
  - intros b. rewrite in_app_iff, lookup_insert_is_Some, Hkeys. simpl. split.
    + intros [H|[<-|[]]]; [|now left].
      destruct (decide (max_brightness = b)); [now left|now right].
    + intros [<-|[_ H]]; [right; now left|now left].
Qed.



(** ** The glyph extractor *)

Lemma fold_min_spec {A} (f : A -> Z) (l : list A) (a : Z) :
  let m := fold_left (fun acc c => Z.min (f c) acc) l a in
  m <= a /\ (forall c, In c l -> m <= f c) /\ (m = a \/ exists c, In c l /\ m = f c).
Proof.
  revert a. induction l as [|c l IH]; intros a; simpl.
  - split; [lia|]. split; [intros c []|now left].
  - destruct (IH (Z.min (f c) a)) as (Hle & Hall & Hex). split; [lia|]. split.
    + intros c' [<-|Hc']; [lia|now apply Hall].
    + destruct Hex as [Hex|(c' & Hc' & Hex)].
      * destruct (Z.min_spec (f c) a) as [[_ E]|[_ E]].
        -- right. exists c. split; [now left|now rewrite Hex].
        -- left. now rewrite Hex.
      * right. exists c'. split; [now right|exact Hex].
Qed.

Lemma fold_max_spec {A} (f : A -> Z) (l : list A) (a : Z) :
  let m := fold_left (fun acc c => Z.max (f c) acc) l a in
  a <= m /\ (forall c, In c l -> f c <= m) /\ (m = a \/ exists c, In c l /\ m = f c).
Proof.
  revert a. induction l as [|c l IH]; intros a; simpl.
  - split; [lia|]. split; [intros c []|now left].
  - destruct (IH (Z.max (f c) a)) as (Hle & Hall & Hex). split; [lia|]. split.
    + intros c' [<-|Hc']; [lia|now apply Hall].
    + destruct Hex as [Hex|(c' & Hc' & Hex)].
      * destruct (Z.max_spec (f c) a) as [[_ E]|[_ E]].
        -- left. now rewrite Hex.
        -- right. exists c. split; [now left|now rewrite Hex].
      * right. exists c'. split; [now right|exact Hex].
Qed.

(** A running minimum seeded with the value of one of the elements is
    the least value of the list; likewise for the maximum. *)
Lemma fold_min_is_min {A} (f : A -> Z) (l : list A) (c0 : A) :
  In c0 l -> is_min (fold_left (fun acc c => Z.min (f c) acc) l (f c0)) (map f l).
Proof.
  intros H0. destruct (fold_min_spec f l (f c0)) as (_ & Hall & Hex). split.
  - apply in_map_iff. destruct Hex as [->|(c & Hc & ->)]; eauto.
  - intros x Hx. apply in_map_iff in Hx. destruct Hx as (c & <- & Hc). now apply Hall.
Qed.

Lemma fold_max_is_max {A} (f : A -> Z) (l : list A) (c0 : A) :
  In c0 l -> is_max (fold_left (fun acc c => Z.max (f c) acc) l (f c0)) (map f l).
Proof.
  intros H0. destruct (fold_max_spec f l (f c0)) as (_ & Hall & Hex). split.
  - apply in_map_iff. destruct Hex as [->|(c & Hc & ->)]; eauto.
  - intros x Hx. apply in_map_iff in Hx. destruct Hx as (c & <- & Hc). now apply Hall.
Qed.

Section GlyphExtractorProperties.

Context {Image contour : Type}.
Variable bitwise_not : Image -> Image.
Variable cvtColor_BGR2GRAY : Image -> Image.
Variable threshold : Image -> Z -> Z -> Image.
Variable findContours : Image -> list contour.
Variable boundingRect : contour -> Z * Z * Z * Z.
Variable rectangle : Image -> point -> point -> color -> Image.
Variable slice : Image -> Z -> Z -> Z -> Z -> Image.

(** The loop of [max_bounding_box] folds the four extremes separately. *)
Lemma max_bounding_box_fold bounding_box_color contours :
  forall xmin ymin xmax ymax img,
  exists img',
    fold_left (max_bounding_box_step boundingRect rectangle bounding_box_color) contours
              (xmin, ymin, xmax, ymax, img)
    = (fold_left (fun acc c => Z.min (rect_left (boundingRect c)) acc) contours xmin,
       fold_left (fun acc c => Z.min (rect_top (boundingRect c)) acc) contours ymin,
       fold_left (fun acc c => Z.max (rect_right (boundingRect c)) acc) contours xmax,
       fold_left (fun acc c => Z.max (rect_bottom (boundingRect c)) acc) contours ymax,
       img').
Proof.
  induction contours as [|c contours IH]; intros xmin ymin xmax ymax img.
  - exists img. reflexivity.
  - cbn [fold_left]. unfold max_bounding_box_step at 2.
    unfold rect_left, rect_top, rect_right, rect_bottom.
    destruct (boundingRect c) as [[[x y] w] h]. apply IH.
Qed.

(** C8: for every mask with at least one contour, [max_bounding_box]
    returns ((xmin, ymin), (xmax, ymax)) where xmin and ymin are the least
    left and top coordinates, and xmax and ymax the greatest right and
    bottom coordinates, over the bounding rectangles of all contours; each
    is the coordinate of some contour, never a starting value of its own. *)
Theorem max_bounding_box_is_union mask apply_boxes_image bounding_box_color :
  findContours mask <> [] ->
  exists xmin ymin xmax ymax img',
    max_bounding_box findContours boundingRect rectangle mask apply_boxes_image
                     bounding_box_color
      = Ok ((xmin, ymin), (xmax, ymax), img') /\
    let rects := map boundingRect (findContours mask) in
    is_min xmin (map rect_left rects) /\ is_min ymin (map rect_top rects) /\
    is_max xmax (map rect_right rects) /\ is_max ymax (map rect_bottom rects).
Proof.
  intros Hne. unfold max_bounding_box.
  destruct (findContours mask) as [|c0 rest] eqn:E; [congruence|]. clear Hne.
  set (contours := c0 :: rest).
  assert (H0 : In c0 contours) by now left.
  destruct (boundingRect c0) as [[[x0 y0] w0] h0] eqn:E0.
  destruct (max_bounding_box_fold bounding_box_color contours
              x0 y0 (x0 + w0) (y0 + h0) apply_boxes_image) as [img' ->].
  do 5 eexists. split; [reflexivity|]. cbn zeta. rewrite !map_map.
  replace (x0 + w0) with (rect_right (boundingRect c0)) by now rewrite E0.
  replace (y0 + h0) with (rect_bottom (boundingRect c0)) by now rewrite E0.
  replace x0 with (rect_left (boundingRect c0)) by now rewrite E0.
  replace y0 with (rect_top (boundingRect c0)) by now rewrite E0.
  split; [|split; [|split]].
  - now apply (fold_min_is_min (fun c => rect_left (boundingRect c))).
  - now apply (fold_min_is_min (fun c => rect_top (boundingRect c))).
  - now apply (fold_max_is_max (fun c => rect_right (boundingRect c))).
  - now apply (fold_max_is_max (fun c => rect_bottom (boundingRect c))).
Qed.

(** C6 (amended): when thresholding yields no contour, [max_bounding_box]
    raises the [IndexError] of [contours[0]], and [crop_and_mask] ends
    with that same exception, in debug mode or not; no value is returned. *)
Theorem crop_and_mask_no_contours_raises image inverted debug :
  findContours (mask_by_threshold bitwise_not cvtColor_BGR2GRAY threshold
                                  image THRESHOLD inverted) = [] ->
  (forall apply_boxes_image bounding_box_color,
     max_bounding_box findContours boundingRect rectangle
       (mask_by_threshold bitwise_not cvtColor_BGR2GRAY threshold image THRESHOLD inverted)
       apply_boxes_image bounding_box_color = Raise IndexError) /\
  crop_and_mask bitwise_not cvtColor_BGR2GRAY threshold findContours boundingRect
                rectangle slice image inverted debug = Raise IndexError.
Proof.
  intros H. split.
  - intros apply_boxes_image bounding_box_color. unfold max_bounding_box. now rewrite H.
  - unfold crop_and_mask, max_bounding_box. now rewrite H.
Qed.

End GlyphExtractorProperties.

Lemma max_bounding_box_is_union_witness :
  example_max_bounding_box [(3, 4, 5, 6); (1, 8, 2, 2)] = Ok ((1, 4), (8, 10), None) /\
  exists xmin ymin xmax ymax img',
    example_max_bounding_box [(3, 4, 5, 6); (1, 8, 2, 2)]
      = Ok ((xmin, ymin), (xmax, ymax), img') /\
    is_min xmin [3; 1] /\ is_min ymin [4; 8] /\ is_max xmax [8; 3] /\ is_max ymax [10; 10].
Proof.
  split; [reflexivity|].
  apply (max_bounding_box_is_union (fun img : contours_image => img) (fun r => r)
           (fun img _ _ _ => img) [(3, 4, 5, 6); (1, 8, 2, 2)] None BOUNDING_BOX_COLOR).
  discriminate.
Defined.

(** C6, as stated, does not hold: an extraction that finds no contour
    ends with [IndexError], not with an error class of its own. *)
Lemma no_contours_is_IndexError :
  example_crop_and_mask [] true false = Raise IndexError /\
  example_crop_and_mask [] true false <> Raise (UserError "NoContoursError").
Proof. split; [reflexivity|discriminate]. Qed.

Lemma crop_and_mask_no_contours_raises_witness :
  (forall apply_boxes_image bounding_box_color,
     max_bounding_box (fun img : contours_image => img) (fun r => r) (fun img _ _ _ => img)
       [] apply_boxes_image bounding_box_color = Raise IndexError) /\
  example_crop_and_mask [] true false = Raise IndexError.
Proof.
  apply (crop_and_mask_no_contours_raises (fun img : contours_image => img)
           (fun img => img) (fun img _ _ => img) (fun img => img) (fun r => r)
           (fun img _ _ _ => img) (fun img _ _ _ _ => img) [] true false).
  reflexivity.
Defined.

(** * Further properties *)

(** ** Draws *)

Lemma randint_Ok a b s :
  a <= b ->
  exists x, random.randint a b s = (Ok x, after_draw s) /\ a <= x <= b.
Proof.
  intros Hab. unfold random.randint.
  destruct (b <? a) eqn:E; [apply Z.ltb_lt in E; lia|].
  exists (a + Z.of_nat (random_draws s 0) mod (b - a + 1)). split; [reflexivity|].
  pose proof (Z.mod_pos_bound (Z.of_nat (random_draws s 0)) (b - a + 1) ltac:(lia)). lia.
Qed.

Lemma randint_Raise a b s :
  b < a -> random.randint a b s = (Raise ValueError, s).
Proof.
  intros Hab. unfold random.randint.
  apply Z.ltb_lt in Hab. rewrite Hab. reflexivity.
Qed.

(** X1: [random_coord] returns a point of the inclusive rectangle when
    both ranges are non-empty, and raises [ValueError] when one is empty. *)
Theorem random_coord_in_rectangle xmin xmax ymin ymax s :
  (xmin <= xmax -> ymin <= ymax ->
   exists x y s', random_coord xmin xmax ymin ymax s = (Ok (x, y), s') /\
                  xmin <= x <= xmax /\ ymin <= y <= ymax) /\
  (xmax < xmin \/ ymax < ymin ->
   fst (random_coord xmin xmax ymin ymax s) = Raise ValueError).
Proof.
  unfold random_coord, bind. split.
  - intros Hx Hy.
    destruct (randint_Ok xmin xmax s Hx) as (x & -> & Hxr).
    destruct (randint_Ok ymin ymax (after_draw s) Hy) as (y & -> & Hyr).
    exists x, y. eexists. split; [reflexivity|]. split; assumption.
  - intros [Hx|Hy].
    + now rewrite randint_Raise.
    + destruct (Z.le_gt_cases xmin xmax) as [Hx|Hx].
      * destruct (randint_Ok xmin xmax s Hx) as (x & -> & _). now rewrite randint_Raise.
      * now rewrite randint_Raise by lia.
Qed.

Lemma random_coord_in_rectangle_witness :
  (exists x y s', random_coord 2 5 1 1 (example_world [7%nat]) = (Ok (x, y), s') /\
                  2 <= x <= 5 /\ 1 <= y <= 1) /\
  fst (random_coord 2 5 1 0 (example_world [7%nat])) = Raise ValueError.
Proof.
  split.
  - apply (proj1 (random_coord_in_rectangle 2 5 1 1 (example_world [7%nat]))); lia.
  - apply (proj2 (random_coord_in_rectangle 2 5 1 0 (example_world [7%nat]))). right. lia.
Defined.

(** X2: without occupied boxes, [random_anchor] returns an anchor of the
    inclusive ranges [0, xdimension - w] and [0, ydimension - h] whenever
    the window fits into the image. *)
Theorem random_anchor_free_fits w h xdimension ydimension valid_box_anchors s :
  w <= xdimension -> h <= ydimension ->
  exists x y s',
    random_anchor w h xdimension ydimension None valid_box_anchors s = (Ok (x, y), s') /\
    0 <= x /\ x + w <= xdimension /\ 0 <= y /\ y + h <= ydimension.
Proof.
  intros Hw Hh. unfold random_anchor, bind.
  destruct (randint_Ok 0 (xdimension - w) s ltac:(lia)) as (x & -> & Hx).
  destruct (randint_Ok 0 (ydimension - h) (after_draw s) ltac:(lia)) as (y & -> & Hy).
  exists x, y. eexists. split; [reflexivity|lia].
Qed.

Lemma random_anchor_free_fits_witness :
  exists x y s',
    random_anchor 3 3 3 3 None None (example_world []) = (Ok (x, y), s') /\
    0 <= x /\ x + 3 <= 3 /\ 0 <= y /\ y + 3 <= 3.
Proof.
  apply (random_anchor_free_fits 3 3 3 3 None (example_world [])); lia.
Defined.

(** X3: without occupied boxes, [random_anchor] raises [ValueError] when
    the window is wider or higher than the image. *)
Theorem random_anchor_free_too_large w h xdimension ydimension valid_box_anchors s :
  xdimension < w \/ ydimension < h ->
  fst (random_anchor w h xdimension ydimension None valid_box_anchors s) = Raise ValueError.
Proof.
  intros H. unfold random_anchor, bind.
  destruct (Z.le_gt_cases 0 (xdimension - w)) as [Hx|Hx].
  - destruct (randint_Ok 0 (xdimension - w) s Hx) as (x & -> & _).
    rewrite randint_Raise by lia. reflexivity.
  - rewrite randint_Raise by lia. reflexivity.
Qed.

Lemma random_anchor_free_too_large_witness :
  fst (random_anchor 4 3 3 3 None None (example_world [])) = Raise ValueError.
Proof.
  apply (random_anchor_free_too_large 4 3 3 3 None (example_world [])). left. lia.
Defined.

(** ** Anchors against occupied boxes *)

(** X4: every anchor that [random_anchor] returns against occupied boxes
    is non-negative, leaves the box strictly inside the canvas, and the
    box at it intersects none of the occupied boxes. *)
Theorem random_anchor_result_is_valid w h xdimension ydimension occupied s x y s' :
  random_anchor w h xdimension ydimension (Some occupied) None s = (Ok (x, y), s') ->
  0 <= x /\ x + w < xdimension /\ 0 <= y /\ y + h < ydimension /\
  do_boxes_intersect ((x, y), (w, h)) occupied = false.
Proof.
  intros H. apply random_anchor_In in H. apply In_box_anchors in H.
  destruct H as (Hx & Hy & Hf). repeat split; try lia; exact Hf.
Qed.

Lemma random_anchor_result_is_valid_witness :
  0 <= 0 /\ 0 + 1 < 3 /\ 0 <= 1 /\ 1 + 1 < 3 /\
  do_boxes_intersect ((0, 1), (1, 1)) [((0, 0), (0, 0))] = false.
Proof.
  apply (random_anchor_result_is_valid 1 1 3 3 [((0, 0), (0, 0))] (example_world [])
           0 1 (after_draw (example_world []))).
  reflexivity.
Defined.

(** X5: against occupied boxes, [random_anchor] returns an anchor exactly
    when some anchor of the enumerated ranges avoids the occupied boxes;
    otherwise it raises. *)
Theorem random_anchor_returns_iff_anchor_exists w h xdimension ydimension occupied s :
  (exists x y, 0 <= x < xdimension - w /\ 0 <= y < ydimension - h /\
               do_boxes_intersect ((x, y), (w, h)) occupied = false) <->
  (exists p s', random_anchor w h xdimension ydimension (Some occupied) None s = (Ok p, s')).
Proof.
  split.
  - intros (x & y & H). apply In_box_anchors in H. unfold random_anchor.
    destruct (choice_nth_error (box_anchors w h xdimension ydimension occupied) s)
      as (p & Hp & _); [intros E; now rewrite E in H|].
    eauto.
  - intros ([x y] & s' & H). apply random_anchor_In in H. apply In_box_anchors in H.
    eauto.
Qed.

Lemma NoDup_box_anchors w h xdimension ydimension occupied :
  List.NoDup (box_anchors w h xdimension ydimension occupied).
Proof.
  unfold box_anchors. apply NoDup_flat_map; [apply NoDup_range| |].
  - intros x _. apply NoDup_flat_map; [apply NoDup_range| |].
    + intros y _. destruct (negb _); repeat constructor; intros [].
    + intros y y' p _ _ Hp Hp'.
      destruct (negb (do_boxes_intersect (x, y, (w, h)) occupied)); [|destruct Hp].
      destruct (negb (do_boxes_intersect (x, y', (w, h)) occupied)); [|destruct Hp'].
      destruct Hp as [<-|[]]. destruct Hp' as [Hp'|[]]. congruence.
  - intros x x' p _ _ Hp Hp'.
    apply in_flat_map in Hp, Hp'. destruct Hp as (y & _ & Hp), Hp' as (y' & _ & Hp').
    destruct (negb (do_boxes_intersect (x, y, (w, h)) occupied)); [|destruct Hp].
    destruct (negb (do_boxes_intersect (x', y', (w, h)) occupied)); [|destruct Hp'].
    destruct Hp as [<-|[]]. destruct Hp' as [Hp'|[]]. congruence.
Qed.

(** X6: the candidate list of [random_anchor] holds every valid anchor
    exactly once, and every valid anchor is returned for exactly one
    index drawn below the number of candidates. *)
Theorem random_anchor_candidates_once w h xdimension ydimension occupied x y :
  0 <= x < xdimension - w -> 0 <= y < ydimension - h ->
  do_boxes_intersect ((x, y), (w, h)) occupied = false ->
  let candidates := box_anchors w h xdimension ydimension occupied in
  List.NoDup candidates /\
  exists k, (k < length candidates)%nat /\
    (forall s, random_draws s 0 = k ->
       fst (random_anchor w h xdimension ydimension (Some occupied) None s) = Ok (x, y)) /\
    (forall k' s, (k' < length candidates)%nat -> random_draws s 0 = k' ->
       fst (random_anchor w h xdimension ydimension (Some occupied) None s) = Ok (x, y) ->
       k' = k).
Proof.
  intros Hx Hy Hf candidates.
  assert (Hin : In (x, y) candidates) by (apply In_box_anchors; auto).
  assert (Hnd : List.NoDup candidates) by apply NoDup_box_anchors.
  split; [exact Hnd|].
  destruct (In_nth _ _ (x, y) Hin) as (k & Hk & Hnth).
  assert (Hne : candidates <> []) by (intros E; now rewrite E in Hin).
  assert (Hrun : forall n s, (n < length candidates)%nat -> random_draws s 0 = n ->
            fst (random_anchor w h xdimension ydimension (Some occupied) None s)
            = Ok (nth n candidates (x, y))).
  { intros n s Hn Hs. unfold random_anchor. fold candidates.
    rewrite (choice_eq candidates (x, y) s Hne). cbn [fst].
    now rewrite Hs, Nat.mod_small. }
  exists k. split; [exact Hk|]. split.
  - intros s Hs. rewrite (Hrun k s Hk Hs). f_equal. exact Hnth.
  - intros k' s Hk' Hs Hres. rewrite (Hrun k' s Hk' Hs) in Hres.
    injection Hres as Hres. rewrite <- Hnth in Hres at 2.
    now apply (proj1 (NoDup_nth candidates (x, y)) Hnd).
Qed.

Lemma random_anchor_candidates_once_witness :
  List.NoDup (box_anchors 1 1 3 3 [((0, 0), (0, 0))]) /\
  exists k, Nat.lt k (length (box_anchors 1 1 3 3 [((0, 0), (0, 0))])) /\
    (forall s, random_draws s 0 = k ->
       fst (random_anchor 1 1 3 3 (Some [((0, 0), (0, 0))]) None s) = Ok (1, 1)) /\
    (forall k' s, Nat.lt k' (length (box_anchors 1 1 3 3 [((0, 0), (0, 0))])) ->
       random_draws s 0 = k' ->
       fst (random_anchor 1 1 3 3 (Some [((0, 0), (0, 0))]) None s) = Ok (1, 1) ->
       k' = k).
Proof.
  apply (random_anchor_candidates_once 1 1 3 3 [((0, 0), (0, 0))] 1 1);
    [lia|lia|reflexivity].
Defined.


(** ** The intersection predicate on several boxes *)

Lemma do_boxes_intersect_cons b o others :
  do_boxes_intersect b (o :: others) = box_hit b o || do_boxes_intersect b others.
Proof. simpl. destruct (box_hit b o); reflexivity. Qed.

(** X8: [do_boxes_intersect] holds exactly when the box intersects one of
    the other boxes taken alone; in particular it is false on no boxes,
    and on a concatenation it is the disjunction of the two parts. *)
Theorem do_boxes_intersect_any b others :
  (do_boxes_intersect b others = true <->
   exists o, In o others /\ do_boxes_intersect b [o] = true) /\
  (forall others', do_boxes_intersect b (others ++ others') =
                   do_boxes_intersect b others || do_boxes_intersect b others').
Proof.
  split.
  - induction others as [|o others IH].
    + split; [discriminate|intros (o & [] & _)].
    + rewrite do_boxes_intersect_cons, orb_true_iff, IH. split.
      * intros [H|(o' & Ho' & H)].
        -- exists o. split; [now left|now rewrite do_boxes_intersect_single].
        -- exists o'. split; [now right|exact H].
      * intros (o' & [<-|Ho'] & H).
        -- left. now rewrite do_boxes_intersect_single in H.
        -- right. eauto.
  - intros others'. induction others as [|o others IH]; [reflexivity|].
    rewrite <- app_comm_cons, !do_boxes_intersect_cons, IH. apply orb_assoc.
Qed.

(** X9: on a single other box the predicate is symmetric. *)
Theorem do_boxes_intersect_sym a b :
  do_boxes_intersect a [b] = do_boxes_intersect b [a].
Proof. rewrite !do_boxes_intersect_single. apply box_hit_sym. Qed.

(** X10: boxes that only touch count as intersecting: a box with
    non-negative sides intersects the box that starts at its right edge,
    and the box that starts at its lower right corner. *)
Theorem touching_boxes_intersect x y w h w' h' :
  0 <= w -> 0 <= h -> 0 <= w' -> 0 <= h' ->
  do_boxes_intersect ((x, y), (w, h)) [((x + w, y), (w', h'))] = true /\
  do_boxes_intersect ((x, y), (w, h)) [((x + w, y + h), (w', h'))] = true.
Proof.
  intros Hw Hh Hw' Hh'. rewrite !do_boxes_intersect_single.
  split; apply box_hit_true_iff; lia.
Qed.

Lemma touching_boxes_intersect_witness :
  do_boxes_intersect ((0, 0), (2, 2)) [((0 + 2, 0), (3, 3))] = true /\
  do_boxes_intersect ((0, 0), (2, 2)) [((0 + 2, 0 + 2), (3, 3))] = true.
Proof. apply (touching_boxes_intersect 0 0 2 2 3 3); lia. Defined.

(** ** Scenes *)



Lemma randint_Ok_inv a b s x s' :
  random.randint a b s = (Ok x, s') -> a <= x <= b /\ s' = after_draw s.
Proof.
  intros H. destruct (Z.le_gt_cases a b) as [Hab|Hab].
  - destruct (randint_Ok a b s Hab) as (x' & E & Hx). rewrite E in H.
    injection H as <- <-. auto.
  - rewrite randint_Raise in H by lia. discriminate H.
Qed.

Lemma match_box_of p :
  match_box (match_of p) =
    let '(letter, (x, y)) := p in
    ((x, y), (snd (letter_shape letter), fst (letter_shape letter))).
Proof.
  destruct p as [letter [x y]]. unfold match_box, match_of.
  destruct (letter_shape letter) as [h w]. simpl. repeat f_equal; lia.
Qed.

(** Every letter placed later misses, with its full box, the boxes
    occupied before it. *)
Lemma placed_ok_later_misses mo xd yd occupied placed :
  placed_ok mo xd yd occupied placed ->
  (forall o q, In o occupied -> In q placed -> box_hit (match_box (match_of q)) o = false) /\
  (forall i j a b, (i < j)%nat ->
     nth_error placed i = Some a -> nth_error placed j = Some b ->
     box_hit (match_box (match_of b)) (occupied_of mo a) = false).
Proof.
  induction 1 as [|occupied letter x y rest Hin Hok [IH1 IH2]].
  - split; [intros o q _ []|]. intros i j a b _ Ha. destruct i; discriminate Ha.
  - split.
    + intros o q Ho [<-|Hq].
      * apply In_box_anchors in Hin. destruct Hin as (_ & _ & Hf).
        rewrite match_box_of.
        now apply (proj1 (do_boxes_intersect_false_iff _ _) Hf).
      * apply IH1; [|exact Hq]. apply in_or_app. now left.
    + intros i j a b Hij Ha Hb. destruct j as [|j]; [lia|]. simpl in Hb.
      destruct i as [|i]; simpl in Ha.
      * injection Ha as <-. apply IH1; [|now apply nth_error_In in Hb].
        apply in_or_app. right. now left.
      * apply (IH2 i j); [lia|assumption|assumption].
Qed.

(** X11: in every scene that [create_random_image] returns, the full box
    of a match placed later does not intersect the occupied box of any
    match placed before it, whatever the sizes of the letters and the
    margin are. *)
Theorem later_match_misses_earlier_occupied_boxes
    min_letters max_letters min_lettersize max_lettersize mo xd yd mb letter_source s matches :
  fst (create_random_image min_letters max_letters min_lettersize max_lettersize
                           mo xd yd mb letter_source s) = Ok matches ->
  forall i j a b, (i < j)%nat ->
    nth_error matches i = Some a -> nth_error matches j = Some b ->
    do_boxes_intersect (match_box b) [match_occupied_box mo a] = false.
Proof.
  intros H i j a b Hij Ha Hb.
  apply create_random_image_placed in H. destruct H as (placed & Hok & -> & _).
  rewrite nth_error_map in Ha, Hb.
  destruct (nth_error placed i) as [pa|] eqn:Ea; [|discriminate Ha].
  destruct (nth_error placed j) as [pb|] eqn:Eb; [|discriminate Hb].
  injection Ha as <-. injection Hb as <-.
  rewrite do_boxes_intersect_single, match_occupied_box_of.
  now apply (proj2 (placed_ok_later_misses mo xd yd [] placed Hok) i j).
Qed.

Lemma later_match_misses_earlier_occupied_boxes_witness :
  do_boxes_intersect (match_box (MatchDict "1" ((24, 0), (52, 28)) []))
                     [match_occupied_box 5 (MatchDict "1" ((0, 0), (28, 28)) [])] = false.
Proof.
  apply (later_match_misses_earlier_occupied_boxes 0 8 28 60 5 80 40 1 square_letters
           (example_world [2%nat])
           [MatchDict "1" ((0, 0), (28, 28)) []; MatchDict "1" ((24, 0), (52, 28)) []]
           ltac:(vm_compute; reflexivity) 0%nat 1%nat);
    [lia|reflexivity|reflexivity].
Defined.

(** X12: in every scene that [create_random_image] returns, any two
    bounding boxes reach into each other by fewer than [max_overlap]
    pixels along the x axis or along the y axis. *)
Theorem bounding_boxes_overlap_less_than_margin
    min_letters max_letters min_lettersize max_lettersize mo xd yd mb letter_source s matches :
  fst (create_random_image min_letters max_letters min_lettersize max_lettersize
                           mo xd yd mb letter_source s) = Ok matches ->
  forall i j ax ay ax2 ay2 bx by' bx2 by2, i <> j ->
    option_map bounding_box (nth_error matches i) = Some ((ax, ay), (ax2, ay2)) ->
    option_map bounding_box (nth_error matches j) = Some ((bx, by'), (bx2, by2)) ->
    overlap_extent ax ax2 bx bx2 < mo \/ overlap_extent ay ay2 by' by2 < mo.
Proof.
  assert (Hlt : forall placed, placed_ok mo xd yd [] placed ->
            forall i j ax ay ax2 ay2 bx by' bx2 by2, (i < j)%nat ->
              option_map bounding_box (nth_error (map match_of placed) i)
                = Some ((ax, ay), (ax2, ay2)) ->
              option_map bounding_box (nth_error (map match_of placed) j)
                = Some ((bx, by'), (bx2, by2)) ->
              overlap_extent ax ax2 bx bx2 < mo \/ overlap_extent ay ay2 by' by2 < mo).
  { intros placed Hok i j ax ay ax2 ay2 bx by' bx2 by2 Hij Ha Hb.
    rewrite nth_error_map in Ha, Hb.
    destruct (nth_error placed i) as [pa|] eqn:Ea; [|discriminate Ha].
    destruct (nth_error placed j) as [pb|] eqn:Eb; [|discriminate Hb].
    pose proof (proj2 (placed_ok_later_misses mo xd yd [] placed Hok) i j pa pb Hij Ea Eb)
      as Hmiss.
    rewrite <- match_occupied_box_of in Hmiss.
    unfold match_box, match_occupied_box, occupied_box in Hmiss.
    cbn [option_map] in Ha, Hb. injection Ha as Ha. injection Hb as Hb.
    rewrite Ha, Hb in Hmiss.
    apply not_true_iff_false in Hmiss. rewrite box_hit_true_iff in Hmiss.
    unfold overlap_extent. lia. }
  intros H i j ax ay ax2 ay2 bx by' bx2 by2 Hij Ha Hb.
  apply create_random_image_placed in H. destruct H as (placed & Hok & -> & _).
  destruct (Nat.lt_total i j) as [Hl|[Heq|Hg]]; [|contradiction|].
  - now apply (Hlt placed Hok i j ax ay ax2 ay2 bx by' bx2 by2).
  - destruct (Hlt placed Hok j i bx by' bx2 by2 ax ay ax2 ay2 Hg Hb Ha) as [Hx|Hy];
      unfold overlap_extent in *; lia.
Qed.

Lemma bounding_boxes_overlap_less_than_margin_witness :
  overlap_extent 0 28 24 52 < 5 \/ overlap_extent 0 28 0 28 < 5.
Proof.
  apply (bounding_boxes_overlap_less_than_margin 0 8 28 60 5 80 40 1 square_letters
           (example_world [2%nat])
           [MatchDict "1" ((0, 0), (28, 28)) []; MatchDict "1" ((24, 0), (52, 28)) []]
           ltac:(vm_compute; reflexivity) 0%nat 1%nat);
    [lia|reflexivity|reflexivity].
Defined.

Lemma create_random_image_run
    min_letters max_letters min_lettersize max_lettersize mo xd yd mb letter_source s matches :
  fst (create_random_image min_letters max_letters min_lettersize max_lettersize
                           mo xd yd mb letter_source s) = Ok matches ->
  exists num_letters avg_height placed,
    min_letters <= num_letters <= max_letters /\
    (num_letters = 0 \/ min_lettersize <= avg_height <= max_lettersize) /\
    map fst placed = map (fun i => letter_source i avg_height) (range 0 num_letters) /\
    placed_ok mo xd yd [] placed /\
    matches = map match_of placed.
Proof.
  unfold create_random_image. intros H.
  apply bind_fst_Ok_inv in H. destruct H as (num_letters & s1 & Hn & H).
  apply randint_Ok_inv in Hn. destruct Hn as [Hn _].
  destruct (num_letters =? 0) eqn:E.
  - apply Z.eqb_eq in E. subst num_letters. injection H as <-.
    exists 0, 0, []. split; [exact Hn|]. split; [now left|].
    repeat split. constructor.
  - apply bind_fst_Ok_inv in H. destruct H as (avg_height & s2 & Havg & H).
    apply randint_Ok_inv in Havg. destruct Havg as [Havg _].
    apply bind_fst_Ok_inv in H. destruct H as ([occupied' matches'] & s3 & Hloop & H).
    injection H as <-.
    apply place_letters_placed in Hloop.
    destruct Hloop as (placed & Hfst & Hok & _ & ->).
    exists num_letters, avg_height, placed. split; [exact Hn|]. split; [now right|].
    repeat split; assumption.
Qed.

(** X13: a scene that [create_random_image] returns holds one match per
    drawn letter, in the order of the letters, with the label and the
    mask of its letter; the number of letters lies between [min_letters]
    and [max_letters]. *)
Theorem create_random_image_matches_follow_letters
    min_letters max_letters min_lettersize max_lettersize mo xd yd mb letter_source s matches :
  fst (create_random_image min_letters max_letters min_lettersize max_lettersize
                           mo xd yd mb letter_source s) = Ok matches ->
  exists num_letters avg_height,
    min_letters <= num_letters <= max_letters /\
    (num_letters = 0 \/ min_lettersize <= avg_height <= max_lettersize) /\
    let letters := map (fun i => letter_source i avg_height) (range 0 num_letters) in
    length matches = Z.to_nat num_letters /\
    map label matches = map letter_label letters /\
    map mask matches = map letter_mask letters.
Proof.
  intros H. apply create_random_image_run in H.
  destruct H as (num_letters & avg_height & placed & Hn & Havg & Hfst & _ & ->).
  assert (Hlen : length placed = Z.to_nat num_letters).
  { rewrite <- (length_map fst placed), Hfst. unfold range.
    now rewrite !length_map, length_seq, Z.sub_0_r. }
  exists num_letters, avg_height. split; [exact Hn|]. split; [exact Havg|].
  cbn zeta. rewrite <- Hfst. rewrite !map_map, !length_map.
  split; [exact Hlen|split].
  - apply map_ext. intros [letter [x y]]. unfold match_of.
    now destruct (letter_shape letter).
  - apply map_ext. intros [letter [x y]]. unfold match_of.
    now destruct (letter_shape letter).
Qed.

Lemma create_random_image_matches_follow_letters_witness :
  exists num_letters avg_height,
    0 <= num_letters <= 8 /\
    (num_letters = 0 \/ 28 <= avg_height <= 60) /\
    length [MatchDict "1" ((0, 0), (28, 28)) []; MatchDict "1" ((24, 0), (52, 28)) []]
      = Z.to_nat num_letters /\
    map label [MatchDict "1" ((0, 0), (28, 28)) []; MatchDict "1" ((24, 0), (52, 28)) []]
      = map letter_label
          (map (fun i => square_letters i avg_height) (range 0 num_letters)) /\
    map mask [MatchDict "1" ((0, 0), (28, 28)) []; MatchDict "1" ((24, 0), (52, 28)) []]
      = map letter_mask
          (map (fun i => square_letters i avg_height) (range 0 num_letters)).
Proof.
  apply (create_random_image_matches_follow_letters 0 8 28 60 5 80 40 1 square_letters
           (example_world [2%nat])
           [MatchDict "1" ((0, 0), (28, 28)) []; MatchDict "1" ((24, 0), (52, 28)) []]).
  vm_compute. reflexivity.
Defined.



(** ** The colour cache across calls *)

Lemma session_ok_ext s s' :
  VALID_COLORS s' = VALID_COLORS s ->
  valid_colors_calls s' = valid_colors_calls s ->
  session_ok s -> session_ok s'.
Proof.
  unfold session_ok, cache_ok. intros -> ->. auto.
Qed.

Lemma cache_grows_by_session_ok b s s' :
  cache_grows_by b s s' -> session_ok s -> session_ok s'.
Proof.
  intros [[Hc Hl]|(Hnone & Hc & Hl)] Hok.
  - now apply (session_ok_ext s s').
  - apply (session_ok_ext
             (World (random_draws s') (<[ b := valid_colors b ]> (VALID_COLORS s))
                    (valid_colors_calls s ++ [b])) s'); [exact Hc|exact Hl|].
    now apply session_ok_store.
Qed.

Lemma choice_world {A} (l : list A) s :
  VALID_COLORS (snd (random.choice l s)) = VALID_COLORS s /\
  valid_colors_calls (snd (random.choice l s)) = valid_colors_calls s.
Proof.
  destruct l as [|d l]; [now rewrite choice_nil|].
  rewrite (choice_eq (d :: l) d) by discriminate. split; reflexivity.
Qed.

Lemma random_anchor_world w h xd yd occupied s :
  VALID_COLORS (snd (random_anchor w h xd yd (Some occupied) None s)) = VALID_COLORS s /\
  valid_colors_calls (snd (random_anchor w h xd yd (Some occupied) None s))
    = valid_colors_calls s.
Proof. unfold random_anchor. apply choice_world. Qed.

Lemma randint_world a b s :
  VALID_COLORS (snd (random.randint a b s)) = VALID_COLORS s /\
  valid_colors_calls (snd (random.randint a b s)) = valid_colors_calls s.
Proof.
  destruct (Z.le_gt_cases a b) as [H|H].
  - destruct (randint_Ok a b s H) as (x & -> & _). split; reflexivity.
  - rewrite randint_Raise by lia. split; reflexivity.
Qed.

(** What a call of [random_color] does to the cache, whether it returns
    or raises. *)
Lemma random_color_world b s :
  let s' := snd (random_color b s) in
  match VALID_COLORS s !! b with
  | Some _ =>
      VALID_COLORS s' = VALID_COLORS s /\ valid_colors_calls s' = valid_colors_calls s
  | None =>
      VALID_COLORS s' = <[ b := valid_colors b ]> (VALID_COLORS s) /\
      valid_colors_calls s' = valid_colors_calls s ++ [b]
  end.
Proof.
  cbn zeta. destruct (VALID_COLORS s !! b) as [l|] eqn:E.
  - rewrite (random_color_cached _ _ _ E).
    pose proof (choice_world l s) as Hw. unfold bind.
    destruct (random.choice l s) as [[c|e] s1]; exact Hw.
  - rewrite (random_color_missing _ _ E).
    set (s0 := World (random_draws s) (<[ b := valid_colors b ]> (VALID_COLORS s))
                     (valid_colors_calls s ++ [b])).
    pose proof (choice_world (valid_colors b) s0) as Hw. unfold bind.
    destruct (random.choice (valid_colors b) s0) as [[c|e] s1]; exact Hw.
Qed.

(** X15: for a brightness bound of zero or less there is no valid
    colour: [random_color] raises the [IndexError] of [random.choice],
    after the empty colour list has been stored under the bound. *)
Theorem random_color_no_valid_color max_brightness s :
  max_brightness <= 0 ->
  session_ok s ->
  fst (random_color max_brightness s) = Raise IndexError /\
  VALID_COLORS (snd (random_color max_brightness s)) !! max_brightness = Some [] /\
  session_ok (snd (random_color max_brightness s)).
Proof.
  intros Hb Hok.
  assert (Hempty : valid_colors max_brightness = []).
  { destruct (valid_colors max_brightness) eqn:E; [reflexivity|].
    assert (0 < max_brightness) by (apply valid_colors_nonempty; now rewrite E). lia. }
  destruct (VALID_COLORS s !! max_brightness) as [l|] eqn:E.
  - assert (l = []) as -> by (rewrite <- Hempty; apply (proj1 Hok _ _ E)).
    rewrite (random_color_cached _ _ _ E). unfold bind. rewrite choice_nil. cbn [fst snd].
    auto.
  - rewrite (random_color_missing _ _ E), Hempty. unfold bind. rewrite choice_nil.
    cbn [fst snd VALID_COLORS]. split; [reflexivity|]. split; [apply lookup_insert_eq|].
    rewrite <- Hempty. now apply session_ok_store.
Qed.

Lemma random_color_no_valid_color_witness :
  fst (random_color 0 (initial_world (draws_of []))) = Raise IndexError /\
  VALID_COLORS (snd (random_color 0 (initial_world (draws_of [])))) !! 0 = Some [] /\
  session_ok (snd (random_color 0 (initial_world (draws_of [])))).
Proof.
  apply (random_color_no_valid_color 0 (initial_world (draws_of []))); [lia|].
  apply initial_world_ok.
Defined.

Lemma place_letters_world mo xd yd mb letterfiles :
  forall occupied matches s,
    cache_grows_by mb s (snd (place_letters mo xd yd mb letterfiles occupied matches s)).
Proof.
  induction letterfiles as [|letter rest IH]; intros occupied matches s.
  - left. split; reflexivity.
  - cbn [place_letters].
    pose proof (random_color_world mb s) as Hcol. cbn zeta in Hcol.
    unfold bind at 1.
    destruct (random_color mb s) as [[c|e] s1]; cbn [snd] in Hcol.
    + destruct (letter_shape letter) as [h w].
      pose proof (random_anchor_world w h xd yd occupied s1) as [Hc2 Hl2].
      unfold bind at 1.
      destruct (random_anchor w h xd yd (Some occupied) None s1) as [[[x y]|e] s2];
        cbn [snd] in Hc2, Hl2.
      * specialize (IH (occupied ++ [occupied_box mo x y w h])
                       (matches ++ [to_match_dict (letter_label letter)
                                      (x, y, (x + w, y + h)) (letter_mask letter)]) s2).
        set (s3 := snd (place_letters mo xd yd mb rest _ _ s2)) in *.
        assert (Hcached : VALID_COLORS s2 !! mb <> None).
        { rewrite Hc2. destruct (VALID_COLORS s !! mb) eqn:E; destruct Hcol as [-> _].
          - now rewrite E.
          - now rewrite lookup_insert_eq. }
        destruct IH as [[Hc3 Hl3]|[Hnone _]]; [|contradiction].
        rewrite Hc2 in Hc3. rewrite Hl2 in Hl3.
        destruct (VALID_COLORS s !! mb) eqn:E; destruct Hcol as [Hc1 Hl1].
        -- left. now rewrite Hc3, Hl3.
        -- right. split; [exact E|]. now rewrite Hc3, Hl3.
      * cbn [snd]. destruct (VALID_COLORS s !! mb) eqn:E; destruct Hcol as [Hc1 Hl1].
        -- left. now rewrite Hc2, Hl2.
        -- right. split; [exact E|]. now rewrite Hc2, Hl2.
    + cbn [snd]. destruct (VALID_COLORS s !! mb) eqn:E; [now left|right; now split].
Qed.

Lemma create_random_image_world
    min_letters max_letters min_lettersize max_lettersize mo xd yd mb letter_source s :
  cache_grows_by mb s
    (snd (create_random_image min_letters max_letters min_lettersize max_lettersize
                              mo xd yd mb letter_source s)).
Proof.
  unfold create_random_image.
  pose proof (randint_world min_letters max_letters s) as [Hc1 Hl1].
  unfold bind at 1.
  destruct (random.randint min_letters max_letters s) as [[n|e] s1]; cbn [snd] in *;
    [|now left].
  destruct (n =? 0); [now left|].
  pose proof (randint_world min_lettersize max_lettersize s1) as [Hc2 Hl2].
  unfold bind at 1.
  destruct (random.randint min_lettersize max_lettersize s1) as [[avg|e] s2];
    cbn [snd] in *; [|left; now rewrite Hc2, Hl2].
  pose proof (place_letters_world mo xd yd mb
                (map (fun i => letter_source i avg) (range 0 n)) [] [] s2) as Hloop.
  unfold bind at 1.
  destruct (place_letters mo xd yd mb _ [] [] s2) as [[[occ ms]|e] s3]; cbn [snd ret] in *;
    (destruct Hloop as [[Hc3 Hl3]|(Hnone & Hc3 & Hl3)];
     [left; now rewrite Hc3, Hl3, Hc2, Hl2
     |right; rewrite Hc3, Hl3, Hc2, Hl2, Hc1, Hl1;
      rewrite Hc2, Hc1 in Hnone; auto]).
Qed.

(** X16: a call of [create_random_image], whether it returns or raises,
    leaves the colour cache and the log of [valid_colors] calls as they
    were, or, when the brightness bound was not cached, adds exactly the
    entry of that bound, computed once; the invariant of the cache is
    kept. *)
Theorem create_random_image_computes_colors_once
    min_letters max_letters min_lettersize max_lettersize mo xd yd mb letter_source s :
  session_ok s ->
  let s' := snd (create_random_image min_letters max_letters min_lettersize max_lettersize
                                     mo xd yd mb letter_source s) in
  cache_grows_by mb s s' /\ session_ok s'.
Proof.
  intros Hok. cbn zeta.
  pose proof (create_random_image_world min_letters max_letters min_lettersize
                max_lettersize mo xd yd mb letter_source s) as H.
  split; [exact H|]. now apply (cache_grows_by_session_ok mb s).
Qed.

Lemma create_random_image_computes_colors_once_witness :
  cache_grows_by 1 (example_world [2%nat])
    (snd (create_random_image 0 8 28 60 5 80 40 1 square_letters (example_world [2%nat]))) /\
  session_ok
    (snd (create_random_image 0 8 28 60 5 80 40 1 square_letters (example_world [2%nat]))).
Proof.
  apply (create_random_image_computes_colors_once 0 8 28 60 5 80 40 1 square_letters
           (example_world [2%nat])).
  apply example_world_ok.
Defined.

(** ** The union box and the debug drawing *)

Section GlyphExtractorFurtherProperties.

Context {Image contour : Type}.
Variable bitwise_not : Image -> Image.
Variable cvtColor_BGR2GRAY : Image -> Image.
Variable threshold : Image -> Z -> Z -> Image.
Variable findContours : Image -> list contour.
Variable boundingRect : contour -> Z * Z * Z * Z.
Variable rectangle : Image -> point -> point -> color -> Image.
Variable slice : Image -> Z -> Z -> Z -> Z -> Image.

Lemma max_bounding_box_fold_image bounding_box_color contours :
  forall xmin ymin xmax ymax img,
    fold_left (max_bounding_box_step boundingRect rectangle bounding_box_color) contours
              (xmin, ymin, xmax, ymax, img)
    = (fold_left (fun acc c => Z.min (rect_left (boundingRect c)) acc) contours xmin,
       fold_left (fun acc c => Z.min (rect_top (boundingRect c)) acc) contours ymin,
       fold_left (fun acc c => Z.max (rect_right (boundingRect c)) acc) contours xmax,
       fold_left (fun acc c => Z.max (rect_bottom (boundingRect c)) acc) contours ymax,
       option_map (draw_contour_boxes boundingRect rectangle bounding_box_color contours) img).
Proof.
  induction contours as [|c contours IH]; intros xmin ymin xmax ymax img.
  - destruct img; reflexivity.
  - cbn [fold_left]. unfold max_bounding_box_step at 2.
    unfold rect_left, rect_top, rect_right, rect_bottom.
    unfold draw_contour_boxes. cbn [fold_left].
    destruct (boundingRect c) as [[[x y] w] h] eqn:E. rewrite IH.
    unfold draw_contour_boxes. destruct img; reflexivity.
Qed.

(** The result of [max_bounding_box] on a mask with contours, with the
    image it leaves behind. *)
Lemma max_bounding_box_Ok mask :
  findContours mask <> [] ->
  exists xmin ymin xmax ymax,
    (forall apply_boxes_image bounding_box_color,
       max_bounding_box findContours boundingRect rectangle mask apply_boxes_image
                        bounding_box_color
       = Ok ((xmin, ymin), (xmax, ymax),
             option_map (draw_contour_boxes boundingRect rectangle bounding_box_color
                                            (findContours mask)) apply_boxes_image)) /\
    let rects := map boundingRect (findContours mask) in
    is_min xmin (map rect_left rects) /\ is_min ymin (map rect_top rects) /\
    is_max xmax (map rect_right rects) /\ is_max ymax (map rect_bottom rects).
Proof.
  intros Hne. unfold max_bounding_box.
  destruct (findContours mask) as [|c0 rest] eqn:E; [congruence|]. clear Hne.
  set (contours := c0 :: rest).
  assert (H0 : In c0 contours) by now left.
  destruct (boundingRect c0) as [[[x0 y0] w0] h0] eqn:E0.
  do 4 eexists. split.
  - intros apply_boxes_image bounding_box_color.
    rewrite max_bounding_box_fold_image. reflexivity.
  - cbn zeta. rewrite !map_map.
    replace (x0 + w0) with (rect_right (boundingRect c0)) by now rewrite E0.
    replace (y0 + h0) with (rect_bottom (boundingRect c0)) by now rewrite E0.
    replace x0 with (rect_left (boundingRect c0)) by now rewrite E0.
    replace y0 with (rect_top (boundingRect c0)) by now rewrite E0.
    split; [|split; [|split]].
    + now apply (fold_min_is_min (fun c => rect_left (boundingRect c))).
    + now apply (fold_min_is_min (fun c => rect_top (boundingRect c))).
    + now apply (fold_max_is_max (fun c => rect_right (boundingRect c))).
    + now apply (fold_max_is_max (fun c => rect_bottom (boundingRect c))).
Qed.

(** X17: when every contour rectangle has non-negative width and height,
    the box that [max_bounding_box] returns has its first corner at or
    before its second on both axes, contains the rectangle of every
    contour, and is contained in every box that does so. *)
Theorem max_bounding_box_least_enclosing mask apply_boxes_image bounding_box_color :
  findContours mask <> [] ->
  (forall c, In c (findContours mask) ->
     rect_left (boundingRect c) <= rect_right (boundingRect c) /\
     rect_top (boundingRect c) <= rect_bottom (boundingRect c)) ->
  exists xmin ymin xmax ymax img',
    max_bounding_box findContours boundingRect rectangle mask apply_boxes_image
                     bounding_box_color
      = Ok ((xmin, ymin), (xmax, ymax), img') /\
    xmin <= xmax /\ ymin <= ymax /\
    (forall c, In c (findContours mask) ->
       xmin <= rect_left (boundingRect c) /\ rect_right (boundingRect c) <= xmax /\
       ymin <= rect_top (boundingRect c) /\ rect_bottom (boundingRect c) <= ymax) /\
    (forall x1 y1 x2 y2,
       (forall c, In c (findContours mask) ->
          x1 <= rect_left (boundingRect c) /\ rect_right (boundingRect c) <= x2 /\
          y1 <= rect_top (boundingRect c) /\ rect_bottom (boundingRect c) <= y2) ->
       x1 <= xmin /\ xmax <= x2 /\ y1 <= ymin /\ ymax <= y2).
Proof.
  intros Hne Hpos.
  destruct (max_bounding_box_Ok mask Hne) as (xmin & ymin & xmax & ymax & Hrun & H).
  cbn zeta in H. rewrite !map_map in H.
  destruct H as ([Hl1 Hl2] & [Ht1 Ht2] & [Hr1 Hr2] & [Hb1 Hb2]).
  apply in_map_iff in Hl1, Ht1, Hr1, Hb1.
  destruct Hl1 as (cl & El & Hcl), Ht1 as (ct & Et & Hct),
           Hr1 as (cr & Er & Hcr), Hb1 as (cb & Eb & Hcb).
  assert (Hall : forall c, In c (findContours mask) ->
            xmin <= rect_left (boundingRect c) /\ rect_right (boundingRect c) <= xmax /\
            ymin <= rect_top (boundingRect c) /\ rect_bottom (boundingRect c) <= ymax).
  { intros c Hc. repeat split.
    - apply Hl2. apply in_map_iff. eauto.
    - apply Hr2. apply in_map_iff. eauto.
    - apply Ht2. apply in_map_iff. eauto.
    - apply Hb2. apply in_map_iff. eauto. }
  exists xmin, ymin, xmax, ymax. eexists. split; [apply Hrun|].
  split; [|split; [|split; [exact Hall|]]].
  - pose proof (Hall cl Hcl). pose proof (Hpos cl Hcl). lia.
  - pose proof (Hall ct Hct). pose proof (Hpos ct Hct). lia.
  - intros x1 y1 x2 y2 Hbox.
    pose proof (Hbox cl Hcl). pose proof (Hbox ct Hct).
    pose proof (Hbox cr Hcr). pose proof (Hbox cb Hcb). lia.
Qed.

(** X18: the corner points that [max_bounding_box] returns depend on the
    mask alone, not on the image to draw into or on the colour; an image
    given for drawing comes back with the rectangle of every contour
    drawn into it in the order of the contours, and no image comes back
    when none was given. *)
Theorem max_bounding_box_drawing mask :
  findContours mask <> [] ->
  exists corners,
    forall apply_boxes_image bounding_box_color,
      max_bounding_box findContours boundingRect rectangle mask apply_boxes_image
                       bounding_box_color
      = Ok (corners,
            option_map (draw_contour_boxes boundingRect rectangle bounding_box_color
                                           (findContours mask)) apply_boxes_image).
Proof.
  intros Hne.
  destruct (max_bounding_box_Ok mask Hne) as (xmin & ymin & xmax & ymax & Hrun & _).
  exists ((xmin, ymin), (xmax, ymax)). exact Hrun.
Qed.

(** X19: outside debug mode, [crop_and_mask] on an image with at least
    one contour cuts the image and its mask with the same bounds, those
    of the box of [max_bounding_box], and draws nothing. *)
Theorem crop_and_mask_cuts_both_alike image inverted :
  let mask := mask_by_threshold bitwise_not cvtColor_BGR2GRAY threshold
                                image THRESHOLD inverted in
  findContours mask <> [] ->
  exists xmin ymin xmax ymax,
    max_bounding_box findContours boundingRect rectangle mask None BOUNDING_BOX_COLOR
      = Ok ((xmin, ymin), (xmax, ymax), None) /\
    crop_and_mask bitwise_not cvtColor_BGR2GRAY threshold findContours boundingRect
                  rectangle slice image inverted false
      = Ok (slice image ymin ymax xmin xmax, slice mask ymin ymax xmin xmax).
Proof.
  intros mask Hne.
  destruct (max_bounding_box_Ok mask Hne) as (xmin & ymin & xmax & ymax & Hrun & _).
  exists xmin, ymin, xmax, ymax. split; [apply (Hrun None)|].
  unfold crop_and_mask. fold mask. rewrite (Hrun None). reflexivity.
Qed.

(** X20: in debug mode, [crop_and_mask] on an image with at least one
    contour cuts nothing: it returns the whole mask, and the image with
    the rectangle of every contour and then the union box drawn into it. *)
Theorem crop_and_mask_debug_draws image inverted :
  let mask := mask_by_threshold bitwise_not cvtColor_BGR2GRAY threshold
                                image THRESHOLD inverted in
  findContours mask <> [] ->
  exists xmin ymin xmax ymax,
    max_bounding_box findContours boundingRect rectangle mask None BOUNDING_BOX_COLOR
      = Ok ((xmin, ymin), (xmax, ymax), None) /\
    crop_and_mask bitwise_not cvtColor_BGR2GRAY threshold findContours boundingRect
                  rectangle slice image inverted true
      = Ok (rectangle
              (draw_contour_boxes boundingRect rectangle BOUNDING_BOX_COLOR
                                  (findContours mask) image)
              (xmin, ymin) (xmax, ymax) MAX_BOUNDING_BOX_COLOR,
            mask).
Proof.
  intros mask Hne.
  destruct (max_bounding_box_Ok mask Hne) as (xmin & ymin & xmax & ymax & Hrun & _).
  exists xmin, ymin, xmax, ymax. split; [apply (Hrun None)|].
  unfold crop_and_mask. fold mask. rewrite (Hrun (Some image)). reflexivity.
Qed.

(** X21: on a mask with a single contour, [max_bounding_box] returns the
    corners of the rectangle of that contour. *)
Theorem max_bounding_box_single_contour mask c apply_boxes_image bounding_box_color :
  findContours mask = [c] ->
  exists img',
    max_bounding_box findContours boundingRect rectangle mask apply_boxes_image
                     bounding_box_color
    = Ok ((rect_left (boundingRect c), rect_top (boundingRect c)),
          (rect_right (boundingRect c), rect_bottom (boundingRect c)), img').
Proof.
  intros E. unfold max_bounding_box. rewrite E.
  unfold rect_left, rect_top, rect_right, rect_bottom.
  cbn [fold_left]. unfold max_bounding_box_step.
  destruct (boundingRect c) as [[[x y] w] h].
  rewrite !Z.min_id, !Z.max_id. eexists. reflexivity.
Qed.

End GlyphExtractorFurtherProperties.

Lemma max_bounding_box_least_enclosing_witness :
  exists xmin ymin xmax ymax img',
    example_max_bounding_box [(3, 4, 5, 6); (1, 8, 2, 2)]
      = Ok ((xmin, ymin), (xmax, ymax), img') /\
    xmin <= xmax /\ ymin <= ymax.
Proof.
  destruct (max_bounding_box_least_enclosing (fun img : contours_image => img) (fun r => r)
              (fun img _ _ _ => img) [(3, 4, 5, 6); (1, 8, 2, 2)] None BOUNDING_BOX_COLOR)
    as (xmin & ymin & xmax & ymax & img' & H & Hx & Hy & _).
  - discriminate.
  - intros c [<-|[<-|[]]]; simpl; lia.
  - exists xmin, ymin, xmax, ymax, img'. auto.
Defined.

Lemma max_bounding_box_drawing_witness :
  exists corners,
    forall apply_boxes_image bounding_box_color,
      max_bounding_box (fun img : contours_image => img) (fun r => r)
                       (fun img _ _ _ => img) [(3, 4, 5, 6); (1, 8, 2, 2)]
                       apply_boxes_image bounding_box_color
      = Ok (corners,
            option_map (draw_contour_boxes (fun r => r) (fun img _ _ _ => img)
                                           bounding_box_color
                                           [(3, 4, 5, 6); (1, 8, 2, 2)])
                       apply_boxes_image).
Proof.
  apply (max_bounding_box_drawing (fun img : contours_image => img) (fun r => r)
           (fun img _ _ _ => img) [(3, 4, 5, 6); (1, 8, 2, 2)]).
  discriminate.
Defined.

Lemma crop_and_mask_cuts_both_alike_witness :
  exists xmin ymin xmax ymax,
    example_max_bounding_box [(3, 4, 5, 6); (1, 8, 2, 2)]
      = Ok ((xmin, ymin), (xmax, ymax), None) /\
    example_crop_and_mask [(3, 4, 5, 6); (1, 8, 2, 2)] true false
      = Ok ([(3, 4, 5, 6); (1, 8, 2, 2)], [(3, 4, 5, 6); (1, 8, 2, 2)]).
Proof.
  apply (crop_and_mask_cuts_both_alike (fun img : contours_image => img) (fun img => img)
           (fun img _ _ => img) (fun img => img) (fun r => r) (fun img _ _ _ => img)
           (fun img _ _ _ _ => img) [(3, 4, 5, 6); (1, 8, 2, 2)] true).
  discriminate.
Defined.

Lemma crop_and_mask_debug_draws_witness :
  exists xmin ymin xmax ymax,
    example_max_bounding_box [(3, 4, 5, 6); (1, 8, 2, 2)]
      = Ok ((xmin, ymin), (xmax, ymax), None) /\
    example_crop_and_mask [(3, 4, 5, 6); (1, 8, 2, 2)] true true
      = Ok ([(3, 4, 5, 6); (1, 8, 2, 2)], [(3, 4, 5, 6); (1, 8, 2, 2)]).
Proof.
  apply (crop_and_mask_debug_draws (fun img : contours_image => img) (fun img => img)
           (fun img _ _ => img) (fun img => img) (fun r => r) (fun img _ _ _ => img)
           (fun img _ _ _ _ => img) [(3, 4, 5, 6); (1, 8, 2, 2)] true).
  discriminate.
Defined.

Lemma max_bounding_box_single_contour_witness :
  exists img',
    example_max_bounding_box [(3, 4, 5, 6)] = Ok ((3, 4), (3 + 5, 4 + 6), img').
Proof.
  apply (max_bounding_box_single_contour (fun img : contours_image => img) (fun r => r)
           (fun img _ _ _ => img) [(3, 4, 5, 6)] (3, 4, 5, 6) None BOUNDING_BOX_COLOR).
  reflexivity.
Defined.

(** ** The asset pools *)

Lemma filter_nil {A} (f : A -> bool) (l : list A) :
  (forall x, In x l -> f x = false) -> List.filter f l = [].
Proof.
  induction l as [|x l IH]; intros H; [reflexivity|]. simpl.
  rewrite (H x) by now left. apply IH. intros y Hy. apply H. now right.
Qed.

Section AssetPoolProperties.

Variable listdir : string -> result (list string).
Variable isfile : string -> bool.
Variable isdir : string -> bool.
Variable path_join : string -> string -> string.

Lemma random_file_Ok_inv root s file s' :
  random_file listdir isfile path_join root s = (Ok file, s') ->
  exists names, listdir root = Ok names /\ In file names /\
                isfile (path_join root file) = true.
Proof.
  unfold random_file. destruct (listdir root) as [names|e]; [|discriminate].
  intros H. apply choice_In in H. apply filter_In in H. destruct H as [Hin Hf].
  exists names. split; [reflexivity|]. split; assumption.
Qed.

(** X22: [random_file] returns a name of the folder listing that is a
    file; it returns one exactly when the folder holds a file, and raises
    the [IndexError] of [random.choice] when it holds none. *)
Theorem random_file_picks_a_file root names s :
  listdir root = Ok names ->
  (forall file s', random_file listdir isfile path_join root s = (Ok file, s') ->
     In file names /\ isfile (path_join root file) = true) /\
  ((exists name, In name names /\ isfile (path_join root name) = true) ->
   exists file s', random_file listdir isfile path_join root s = (Ok file, s')) /\
  ((forall name, In name names -> isfile (path_join root name) = false) ->
   random_file listdir isfile path_join root s = (Raise IndexError, s)).
Proof.
  intros Hdir. split; [|split].
  - intros file s' H. apply random_file_Ok_inv in H.
    destruct H as (names' & Hdir' & Hin & Hf). rewrite Hdir in Hdir'.
    injection Hdir' as <-. auto.
  - intros (name & Hin & Hf). unfold random_file. rewrite Hdir.
    destruct (choice_nth_error
                (List.filter (fun img => isfile (path_join root img)) names) s)
      as (file & Hrun & _); [|eauto].
    intros E. assert (Hin' : In name (List.filter (fun img => isfile (path_join root img)) names))
      by (apply filter_In; auto).
    now rewrite E in Hin'.
  - intros Hnone. unfold random_file. rewrite Hdir.
    rewrite filter_nil by exact Hnone. apply choice_nil.
Qed.

(** X23: [random_letter] returns a label folder of the label root, the
    path of that folder, and a file of that folder; without a label
    folder under the root it raises the [IndexError] of [random.choice]. *)
Theorem random_letter_picks_label_and_file labelroot names s :
  listdir labelroot = Ok names ->
  (forall randlabel imgroot randimgfile s',
     random_letter listdir isfile isdir path_join labelroot s
       = (Ok (randlabel, imgroot, randimgfile), s') ->
     In randlabel names /\ isdir (path_join labelroot randlabel) = true /\
     imgroot = path_join labelroot randlabel /\
     exists files, listdir imgroot = Ok files /\ In randimgfile files /\
                   isfile (path_join imgroot randimgfile) = true) /\
  ((forall name, In name names -> isdir (path_join labelroot name) = false) ->
   random_letter listdir isfile isdir path_join labelroot s = (Raise IndexError, s)).
Proof.
  intros Hdir. unfold random_letter. rewrite Hdir. split.
  - intros randlabel imgroot randimgfile s' H.
    apply bind_Ok_inv in H. destruct H as (l & s1 & Hl & H).
    apply choice_In in Hl. apply filter_In in Hl. destruct Hl as [Hin Hd].
    apply bind_Ok_inv in H. destruct H as (file & s2 & Hfile & H).
    injection H as <- <- <- _.
    apply random_file_Ok_inv in Hfile. auto.
  - intros Hnone.
    rewrite filter_nil by exact Hnone. reflexivity.
Qed.

End AssetPoolProperties.

Lemma random_file_picks_a_file_witness :
  (forall file s',
     random_file example_listdir example_isfile example_path_join "testing/0"
                 (example_world [1%nat]) = (Ok file, s') ->
     In file ["a.png"; "b.png"] /\
     example_isfile (example_path_join "testing/0" file) = true) /\
  fst (random_file example_listdir example_isfile example_path_join "testing/0"
                   (example_world [1%nat])) = Ok "b.png".
Proof.
  split; [|reflexivity].
  apply (random_file_picks_a_file example_listdir example_isfile example_path_join
           "testing/0" ["a.png"; "b.png"] (example_world [1%nat])).
  reflexivity.
Defined.

Lemma random_letter_picks_label_and_file_witness :
  fst (random_letter example_listdir example_isfile example_isdir example_path_join
                     "testing" (example_world [1%nat])) = Ok ("7", "testing/7", "c.png") /\
  forall randlabel imgroot randimgfile s',
    random_letter example_listdir example_isfile example_isdir example_path_join
                  "testing" (example_world [1%nat])
      = (Ok (randlabel, imgroot, randimgfile), s') ->
    In randlabel ["0"; "7"; "README"] /\
    example_isdir (example_path_join "testing" randlabel) = true /\
    imgroot = example_path_join "testing" randlabel /\
    exists files, example_listdir imgroot = Ok files /\ In randimgfile files /\
                  example_isfile (example_path_join imgroot randimgfile) = true.
Proof.
  split; [reflexivity|].
  apply (random_letter_picks_label_and_file example_listdir example_isfile example_isdir
           example_path_join "testing" ["0"; "7"; "README"] (example_world [1%nat])).
  reflexivity.
Defined.

(** ** Generating a data set *)

Lemma string_length_append a b :
  String.length (String.append a b) = (String.length a + String.length b)%nat.
Proof. induction a as [|c a IH]; simpl; [reflexivity|now rewrite IH]. Qed.

Lemma append_suffix_inj suffix a b :
  String.append a suffix = String.append b suffix -> a = b.
Proof.
  revert b. induction a as [|c a IH]; intros [|c' b] H.
  - reflexivity.
  - apply (f_equal String.length) in H.
    rewrite !string_length_append in H. simpl in H. lia.
  - apply (f_equal String.length) in H.
    rewrite !string_length_append in H. simpl in H. lia.
  - cbn [String.append] in H. injection H as -> H. f_equal. now apply IH.
Qed.

Lemma imagefilename_inj a b :
  String.append (str a) ".jpg" = String.append (str b) ".jpg" -> a = b.
Proof.
  intros H. apply append_suffix_inj in H. now apply pretty_Z_inj in H.
Qed.

Lemma generate_annotations_result letter_source img_ids :
  forall annotations s annotations',
    fst (generate_annotations letter_source img_ids annotations s) = Ok annotations' ->
    exists new,
      annotations' = annotations ++ new /\
      map filepath new = map (fun img_id => String.append (str img_id) ".jpg") img_ids /\
      Forall2 (fun img_id a =>
                 exists s0, fst (create_random_image_default (letter_source img_id) s0)
                            = Ok (annotation_matches a)) img_ids new.
Proof.
  induction img_ids as [|img_id rest IH]; intros annotations s annotations' H.
  - injection H as <-. exists []. rewrite app_nil_r. repeat split. constructor.
  - cbn [generate_annotations] in H.
    apply bind_fst_Ok_inv in H. destruct H as (ms & s1 & Hscene & H).
    apply IH in H. destruct H as (new & -> & Hpaths & Hscenes).
    exists (Annotation (String.append (str img_id) ".jpg") ms :: new).
    rewrite <- app_assoc. split; [reflexivity|]. split.
    + cbn [map filepath]. now rewrite Hpaths.
    + constructor; [|exact Hscenes]. exists s. cbn [annotation_matches]. now rewrite Hscene.
Qed.

(** X24: when [generate_labeled_data] returns, the annotations list the
    files "<id>.jpg" for the ids from [start_id_enumeration] up to, but
    not including, [num_samples], in that order: there are
    [num_samples - start_id_enumeration] of them, none if that is not
    positive, and no two annotations name the same file. *)
Theorem generate_labeled_data_file_names num_samples start_id_enumeration letter_source s
    annotations :
  fst (generate_labeled_data num_samples start_id_enumeration letter_source s)
    = Ok annotations ->
  map filepath annotations
    = map (fun img_id => String.append (str img_id) ".jpg")
          (range start_id_enumeration num_samples) /\
  length annotations = Z.to_nat (num_samples - start_id_enumeration) /\
  List.NoDup (map filepath annotations).
Proof.
  unfold generate_labeled_data. intros H.
  apply generate_annotations_result in H. destruct H as (new & -> & Hpaths & _).
  simpl app. split; [exact Hpaths|]. split.
  - rewrite <- (length_map filepath new), Hpaths. unfold range.
    now rewrite !length_map, length_seq.
  - rewrite Hpaths. apply Finite.Injective_map_NoDup; [|apply NoDup_range].
    intros a b. apply imagefilename_inj.
Qed.

Lemma generate_labeled_data_file_names_witness :
  map filepath [Annotation "1.jpg" []; Annotation "2.jpg" []]
    = map (fun img_id => String.append (str img_id) ".jpg") (range 1 3) /\
  length [Annotation "1.jpg" []; Annotation "2.jpg" []] = Z.to_nat (3 - 1) /\
  List.NoDup (map filepath [Annotation "1.jpg" []; Annotation "2.jpg" []]).
Proof.
  apply (generate_labeled_data_file_names 3 1 (fun _ => square_letters) (example_world [])).
  vm_compute. reflexivity.
Defined.



Lemma cache_grows_by_trans b s s1 s2 :
  cache_grows_by b s s1 -> cache_grows_by b s1 s2 -> cache_grows_by b s s2.
Proof.
  intros [[Hc1 Hl1]|(Hn1 & Hc1 & Hl1)] [[Hc2 Hl2]|(Hn2 & Hc2 & Hl2)].
  - left. now rewrite Hc2, Hl2.
  - right. rewrite Hc1 in Hn2. rewrite Hc2, Hl2, Hc1, Hl1. auto.
  - right. rewrite Hc2, Hl2. auto.
  - rewrite Hc1, lookup_insert_eq in Hn2. discriminate Hn2.
Qed.

Lemma generate_annotations_world letter_source img_ids :
  forall annotations s,
    cache_grows_by MAX_BRIGHTNESS s
      (snd (generate_annotations letter_source img_ids annotations s)).
Proof.
  induction img_ids as [|img_id rest IH]; intros annotations s.
  - left. split; reflexivity.
  - cbn [generate_annotations].
    pose proof (create_random_image_world 0 8 28 60 5 400 300 MAX_BRIGHTNESS
                  (letter_source img_id) s) as Hscene.
    fold (create_random_image_default (letter_source img_id)) in Hscene.
    unfold bind.
    destruct (create_random_image_default (letter_source img_id) s) as [[ms|e] s1];
      cbn [snd] in *; [|exact Hscene].
    eapply cache_grows_by_trans; [exact Hscene|apply IH].
Qed.

(** X26: when the default brightness bound is cached, as it is once the
    module is loaded, [generate_labeled_data] never computes a colour
    table: whether it returns or raises, the cache and the log of
    [valid_colors] calls are as before. *)
Theorem generate_labeled_data_reuses_colors num_samples start_id_enumeration
    letter_source s :
  is_Some (VALID_COLORS s !! MAX_BRIGHTNESS) ->
  let s' := snd (generate_labeled_data num_samples start_id_enumeration letter_source s) in
  VALID_COLORS s' = VALID_COLORS s /\ valid_colors_calls s' = valid_colors_calls s.
Proof.
  intros [l Hl]. cbn zeta. unfold generate_labeled_data.
  destruct (generate_annotations_world letter_source
              (range start_id_enumeration num_samples) [] s) as [H|(Hnone & _)];
    [exact H|congruence].
Qed.

Lemma generate_labeled_data_reuses_colors_witness :
  VALID_COLORS (snd (generate_labeled_data 100 1 (fun _ => square_letters)
                                           (initial_world (draws_of []))))
    = VALID_COLORS (initial_world (draws_of [])) /\
  valid_colors_calls (snd (generate_labeled_data 100 1 (fun _ => square_letters)
                                                 (initial_world (draws_of []))))
    = valid_colors_calls (initial_world (draws_of [])).
Proof.
  apply (generate_labeled_data_reuses_colors 100 1 (fun _ => square_letters)
           (initial_world (draws_of []))).
  exists (valid_colors MAX_BRIGHTNESS). apply lookup_singleton_eq.
Defined.

(** ** The valid colours as the bound varies *)

(** X27: raising the brightness bound only adds colours, and from 763 on
    (three channels of at most 254) the bound excludes nothing: every
    colour with its channels in [0, 255) is valid. *)
Theorem valid_colors_grow_and_saturate b1 b2 :
  b1 <= b2 ->
  (forall c, In c (valid_colors b1) -> In c (valid_colors b2)) /\
  (763 <= b2 ->
   forall r g b, 0 <= r < 255 -> 0 <= g < 255 -> 0 <= b < 255 ->
     In (r, g, b) (valid_colors b2)).
Proof.
  intros Hb. split.
  - intros [[r g] b]. rewrite !In_valid_colors. unfold valid_color. lia.
  - intros Hsat r g b Hr Hg Hb'. apply In_valid_colors. unfold valid_color. lia.
Qed.

Lemma valid_colors_grow_and_saturate_witness :
  (forall c, In c (valid_colors MAX_BRIGHTNESS) -> In c (valid_colors 765)) /\
  (763 <= 765 ->
   forall r g b, 0 <= r < 255 -> 0 <= g < 255 -> 0 <= b < 255 ->
     In (r, g, b) (valid_colors 765)).
Proof.
  apply (valid_colors_grow_and_saturate MAX_BRIGHTNESS 765). unfold MAX_BRIGHTNESS. lia.
Defined.
